(** * KeyBench: the TextRank ranker ([src/rankers.py])

    A shallow embedding of the ranking-and-ordering code of [rankers.py]
    (Python 2) and the properties its specification states about it.

    Modelling conventions.
    - A Python [str] is a [string] (a sequence of 8-bit characters).
    - A Python [int] is a [Z]; a Python [float] is an exact rational [Q]
      (no rounding, no NaN).  The float counter [frequency[term]] only ever
      holds [0.0 + 1.0 + ... + 1.0], which is exact in binary floating point,
      so it is kept as the integer it denotes.
    - [first_positions] and [frequency] are dictionaries that are only read
      and written by key: [gmap string Z].
    - A dictionary that is iterated ([weights.items()],
      [token_ids().values()]) is given by the list it iterates over, in
      iteration order.
    - A raised exception is a value [Raise e] of the [result] monad; the
      loops are folds in that monad. *)

From Stdlib Require Import ZArith QArith Lia Permutation Sorted Ascii.
From stdpp Require Import base option list strings gmap sorting.

Close Scope Q_scope.
Local Open Scope Z_scope.

(** ** Exceptions *)

Inductive exn : Set := KeyError | IndexError | ValueError.

Inductive result (A : Type) : Type :=
| Ok (a : A)
| Raise (e : exn).
Arguments Ok {A} a.
Arguments Raise {A} e.

Global Instance result_ret : MRet result := λ A a, Ok a.
Global Instance result_bind : MBind result := λ A B f r,
  match r with Ok a => f a | Raise e => Raise e end.

(** A [for x in l:] loop whose body updates the loop state [s] and may
    raise. *)
Fixpoint for_each {A S : Type} (body : S → A → result S) (s : S) (l : list A)
  : result S :=
  match l with
  | [] => Ok s
  | x :: l' => s' ← body s x; for_each body s' l'
  end.

(** [l[i]] on a Python list. *)
Definition getitem {A : Type} (l : list A) (i : nat) : result A :=
  match l !! i with Some x => Ok x | None => Raise IndexError end.

(** [d[k]] on a dictionary given by its [items()]. *)
Fixpoint dict_getitem {V : Type} (d : list (string * V)) (k : string)
  : result V :=
  match d with
  | [] => Raise KeyError
  | (k', v) :: d' => if decide (k' = k) then Ok v else dict_getitem d' k
  end.

(** ** Python string methods *)

Module Str.

(** [s.split()]: the maximal runs of non-whitespace characters. *)
Definition split (s : string) : list string := String.words s.

(** [len(s)]. *)
Definition len (s : string) : Z := Z.of_nat (String.length s).

(** [s.find(sub)]: the least index at which [sub] occurs in [s], or -1. *)
Fixpoint find (s sub : string) : Z :=
  if String.prefix sub s then 0
  else match s with
       | EmptyString => -1
       | String _ s' => let r := find s' sub in
                        if r <? 0 then -1 else r + 1
       end.

Fixpoint drop (n : nat) (s : string) : string :=
  match n, s with
  | S n', String _ s' => drop n' s'
  | _, _ => s
  end.

(** The split of [s] around the rightmost occurrence of a non-empty
    [sep]. *)
Fixpoint rsplit_last (s sep : string) : option (string * string) :=
  match s with
  | EmptyString => None
  | String c s' =>
      match rsplit_last s' sep with
      | Some (a, b) => Some (String c a, b)
      | None => if String.prefix sep s
                then Some (EmptyString, drop (String.length sep) s)
                else None
      end
  end.

(** [s.rsplit(sep, 1)]. *)
Definition rsplit1 (s sep : string) : result (list string) :=
  if decide (sep = EmptyString) then Raise ValueError
  else match rsplit_last s sep with
       | Some (a, b) => Ok [a; b]
       | None => Ok [s]
       end.

End Str.

(** ** The collaborators of the ranker *)

(** What the ranker reads from [self._textrank.strategy()]:
    whether it is a [TopicRankStrategy], [token_ids().values()],
    [tag_separator()], [stemmer().stem] and [context()]. *)
Record Strategy : Type := {
  is_TopicRankStrategy : bool;
  token_ids : list (list string);
  tag_separator : string;
  stemmer : string → string;
  context : list string
}.

Inductive ORDERING_CRITERIA : Set := POSITION | FREQUENCY | CENTROID.

Record TextRankRanker : Type := {
  strategy : Strategy;
  ordering_criteria : ORDERING_CRITERIA
}.

(** ** Sorting: [sorted(l, key=...)] and [sorted(l, key=..., reverse=True)]

    Python computes the key of every element, in list order, and then sorts
    stably.  The keys of [rankers.py] are totally preordered, so the result
    of a stable sort is determined; it is computed here by insertion. *)

Section sorted.
Context {K A : Type} (leb : K → K → bool).

Fixpoint insert_sorted (x : K * A) (l : list (K * A)) : list (K * A) :=
  match l with
  | [] => [x]
  | y :: l' => if leb x.1 y.1 then x :: l else y :: insert_sorted x l'
  end.

Definition stable_sort (l : list (K * A)) : list (K * A) :=
  foldr insert_sorted [] l.

Definition sorted (key : A → result K) (l : list A) : result (list A) :=
  ks ← mapM key l; Ok ((stable_sort (zip ks l)).*2).
End sorted.

(** The keys of [cluster_ordering] are pairs [(a, b)] of numbers, compared
    lexicographically. *)
Definition tuple_leb (x y : Z * Z) : bool :=
  (x.1 <? y.1) || ((x.1 =? y.1) && (x.2 <=? y.2)).

(** [reverse=True] on float keys. *)
Definition float_geb (x y : Q) : bool := Qle_bool y x.

(** [x > y] on floats. *)
Definition float_gtb (x y : Q) : bool := negb (Qle_bool x y).

(** ** [rankers.py] *)

Section rankers.

(** [simple_word_overlap_similarity] is a free name of [rankers.py]: the
    module neither defines nor imports it.  It is taken as a parameter:
    [simple_word_overlap_similarity stem1 stem2] is [Some v] when the call
    [simple_word_overlap_similarity(stem1)(stem2)] returns the float [v]
    and [None] when it raises (a [NameError] when the name is unbound). *)
Variable simple_word_overlap_similarity : string → string → option Q.

(** Lines 13-36. *)
Definition pos_tagged_term_stemming
    (pos_tagged_candidate tag_separator : string)
    (stemmer : string → string) : result string :=
  for_each (λ stem wt,
      parts ← Str.rsplit1 wt tag_separator;
      w ← getitem parts 0;
      let stem := if decide (stem ≠ EmptyString) then stem +:+ " "
                  else stem in
      Ok (stem +:+ stemmer w))
    EmptyString (Str.split pos_tagged_candidate).

(** Lines 60-69: the inner loop of [cluster_centroid] and the division
    that follows it. *)
Definition average_similarity (cluster : list string)
    (tag_separator : string) (stemmer : string → string) (stem1 : string)
    : result Q :=
  similarity ← for_each (λ similarity term2,
      stem2 ← pos_tagged_term_stemming term2 tag_separator stemmer;
      match simple_word_overlap_similarity stem1 stem2 with
      | Some v => Ok (similarity + v)%Q
      | None => Ok (similarity + 0)%Q
      end)
    0%Q cluster;
  Ok (similarity / inject_Z (Z.of_nat (length cluster)))%Q.

(** Lines 39-75.  The result [None] is Python's [None]. *)
Definition cluster_centroid (cluster : list string)
    (tag_separator : string) (stemmer : string → string)
    : result (option string) :=
  st ← for_each (λ '(centroid, max_similarity) term1,
      stem1 ← pos_tagged_term_stemming term1 tag_separator stemmer;
      similarity ← average_similarity cluster tag_separator stemmer stem1;
      if float_gtb similarity max_similarity
      then Ok (Some term1, similarity)
      else Ok (centroid, max_similarity))
    (None, (-1)%Q) cluster;
  Ok st.1.

(** Lines 238-243: the fake POS tagging of a term. *)
Definition fake_pos_tagged (tag_separator term : string) : string :=
  fold_left (λ tagged w,
      let tagged := if decide (tagged ≠ EmptyString) then tagged +:+ " "
                    else tagged in
      tagged +:+ (w +:+ tag_separator +:+ "fk"))
    (Str.split term) EmptyString.

(** Lines 195-203 and 255-262: the untagged form of a term or of a
    sentence. *)
Definition untagged (tag_separator sentence : string) : result string :=
  for_each (λ untagged_sentence wt,
      parts ← Str.rsplit1 wt tag_separator;
      w ← getitem parts 0;
      let untagged_sentence :=
        if decide (untagged_sentence ≠ EmptyString)
        then untagged_sentence +:+ " " else untagged_sentence in
      Ok (untagged_sentence +:+ w))
    EmptyString (Str.split sentence).

(** The state of the loop of lines 254-275. *)
Record analysis : Type := {
  sentence_length_accumulator : Z;
  first_positions : gmap string Z;
  frequency : gmap string Z
}.

(** Lines 265-273: one term against one untagged sentence. *)
Definition analyse_term (untagged_sentence : string) (a : analysis)
    (term : string) : analysis :=
  let pos := Str.find untagged_sentence term in
  if 0 <=? pos then
    let first_positions :=
      if decide (is_Some (first_positions a !! term))
      then first_positions a
      else <[term := sentence_length_accumulator a + (pos + 1)]>
             (first_positions a) in
    let frequency :=
      if decide (is_Some (frequency a !! term)) then frequency a
      else <[term := 0]> (frequency a) in
    let frequency := alter (λ n, n + 1) term frequency in
    {| sentence_length_accumulator := sentence_length_accumulator a;
       first_positions := first_positions;
       frequency := frequency |}
  else a.

(** Lines 254-275: one sentence. *)
Definition analyse_sentence (tag_separator : string) (cluster : list string)
    (a : analysis) (sentence : string) : result analysis :=
  untagged_sentence ← untagged tag_separator sentence;
  let a := fold_left (analyse_term untagged_sentence) cluster a in
  Ok {| sentence_length_accumulator :=
          sentence_length_accumulator a + Str.len untagged_sentence;
        first_positions := first_positions a;
        frequency := frequency a |}.

(** Lines 231-233 and 254-275: the position and frequency analysis. *)
Definition position_frequency_analysis (tag_separator : string)
    (text cluster : list string) : result analysis :=
  for_each (analyse_sentence tag_separator cluster)
    {| sentence_length_accumulator := 0;
       first_positions := ∅; frequency := ∅ |}
    text.

(** [d[k]] on [first_positions] and [frequency]. *)
Definition lookup_or_raise (d : gmap string Z) (k : string) : result Z :=
  match d !! k with Some v => Ok v | None => Raise KeyError end.

(** [len(t.split())]. *)
Definition word_count (t : string) : Z :=
  Z.of_nat (length (Str.split t)).

(** [-1 * len(t.split())]. *)
Definition neg_word_count (t : string) : Z := -1 * word_count t.

(** Lines 248-251: the cluster member at the position of the centroid. *)
Definition centroid_of (cluster fake_pos_tagged_cluster : list string)
    (tagged_centroid : option string) : string :=
  fold_left (λ centroid '(original, term),
      if decide (Some term = tagged_centroid) then original else centroid)
    (zip cluster fake_pos_tagged_cluster) EmptyString.

(** Lines 219-286. *)
Definition cluster_ordering (self : TextRankRanker) (cluster : list string)
    : result (list string) :=
  let text := context (strategy self) in
  let sep := tag_separator (strategy self) in
  let fake_pos_tagged_cluster := fake_pos_tagged sep <$> cluster in
  tagged_centroid ←
    cluster_centroid fake_pos_tagged_cluster sep (stemmer (strategy self));
  let centroid :=
    centroid_of cluster fake_pos_tagged_cluster tagged_centroid in
  a ← position_frequency_analysis sep text cluster;
  match ordering_criteria self with
  | POSITION =>
      sorted tuple_leb
        (λ t, p ← lookup_or_raise (first_positions a) t;
              Ok (p, neg_word_count t)) cluster
  | FREQUENCY =>
      sorted tuple_leb
        (λ t, f ← lookup_or_raise (frequency a) t;
              Ok (f, neg_word_count t)) cluster
  | CENTROID =>
      sorted tuple_leb
        (λ t, Ok (Z.b2z (bool_decide (t ≠ centroid)), neg_word_count t))
        cluster
  end.

(** Lines 168-217.  [weights] is [weights.items()]. *)
Definition ordering (self : TextRankRanker) (weights : list (string * Q))
    (clusters : list (list string)) : result (list (string * Q)) :=
  if negb (is_TopicRankStrategy (strategy self)) then
    sorted float_geb (λ row, Ok row.2) weights
  else
    let clusters := token_ids (strategy self) in
    ordered_terms ← for_each (λ ordered_terms cluster,
        untagged_cluster ← for_each (λ untagged_cluster term,
            untagged_term ← untagged (tag_separator (strategy self)) term;
            Ok (untagged_cluster ++ [untagged_term]))
          [] cluster;
        untagged_cluster ← cluster_ordering self untagged_cluster;
        cluster_keyphrase ← getitem untagged_cluster 0;
        cluster_score ← dict_getitem weights cluster_keyphrase;
        Ok (ordered_terms ++ [(cluster_keyphrase, cluster_score)]))
      [] clusters;
    sorted float_geb (λ row, Ok row.2) ordered_terms.

End rankers.

(** ** Vocabulary of the specification *)

(** Scores do not increase down a ranked result. *)
Definition descending (l : list (string * Q)) : Prop :=
  ∀ i x y, l !! i = Some x → l !! S i = Some y → (y.2 <= x.2)%Q.

(** [e] is an entry for [cluster]: its phrase is the untagged form of a
    member of the cluster, and its score is the weight of that phrase. *)
Definition represents (sep : string) (weights : list (string * Q))
    (cluster : list string) (e : string * Q) : Prop :=
  (∃ term, term ∈ cluster ∧ untagged sep term = Ok e.1) ∧
  dict_getitem weights e.1 = Ok e.2.

(** Lines 59-69 for one member [term1] of the cluster: its average
    similarity to the members of the cluster. *)
Definition member_average (sim : string → string → option Q)
    (cluster : list string) (sep : string) (stemmer : string → string)
    (term1 : string) : result Q :=
  stem1 ← pos_tagged_term_stemming term1 sep stemmer;
  average_similarity sim cluster sep stemmer stem1.

(** A similarity function that returns [0.0] wherever [sim] raises. *)
Definition zero_on_failure (sim : string → string → option Q)
  : string → string → option Q :=
  λ stem1 stem2, Some (default 0%Q (sim stem1 stem2)).

(** The body of the loop of lines 254-275 on a sentence that is already
    untagged. *)
Definition analyse_untagged (cluster : list string) (a : analysis)
    (untagged_sentence : string) : analysis :=
  let a := fold_left (analyse_term untagged_sentence) cluster a in
  {| sentence_length_accumulator :=
       sentence_length_accumulator a + Str.len untagged_sentence;
     first_positions := first_positions a;
     frequency := frequency a |}.

(** The phrase [t] is a substring of the untagged sentence [u]. *)
Definition occurs (u t : string) : bool := 0 <=? Str.find u t.

(** The number of untagged sentences in which [t] occurs. *)
Definition sentences_with (us : list string) (t : string) : Z :=
  Z.of_nat (length (filter (λ u, occurs u t) us)).

(** The number of times the cluster lists [t]. *)
Definition multiplicity (cluster : list string) (t : string) : Z :=
  Z.of_nat (length (filter (λ t', t' = t) cluster)).

(** The accumulated length of untagged sentences. *)
Definition total_length (us : list string) : Z :=
  foldr (λ u n, Str.len u + n) 0 us.

(** The offset of [t] in the first sentence in which it occurs, [acc]
    characters being accumulated before the sentences [us]. *)
Fixpoint first_offset (acc : Z) (us : list string) (t : string) : option Z :=
  match us with
  | [] => None
  | u :: us' => if occurs u t then Some (acc + (Str.find u t + 1))
                else first_offset (acc + Str.len u) us' t
  end.

(** Every sentence that contains a phrase of the cluster adds exactly 1 to
    the occurrence count of the phrase. *)
Definition each_sentence_counts_once (sep : string)
    (text cluster : list string) : Prop :=
  ∀ a us t,
    position_frequency_analysis sep text cluster = Ok a →
    Forall2 (λ sentence u, untagged sep sentence = Ok u) text us →
    t ∈ cluster → 0 < sentences_with us t →
    frequency a !! t = Some (sentences_with us t).

(** ** A small document, used to run the model *)

Definition identity_stemmer : string → string := λ w, w.

(** The free name left unbound: every call raises [NameError]. *)
Definition unbound_similarity : string → string → option Q := λ _ _, None.

(** A word-overlap similarity: the number of words of the first stem that
    are words of the second. *)
Definition shared_words_similarity : string → string → option Q :=
  λ stem1 stem2,
    Some (inject_Z (Z.of_nat
      (length (filter (λ w, w ∈ Str.split stem2) (Str.split stem1))))).

Definition example_strategy : Strategy := {|
  is_TopicRankStrategy := true;
  token_ids := [["cat/NN"; "the/DT cat/NN"]; ["dog/NN"]];
  tag_separator := "/";
  stemmer := identity_stemmer;
  context := ["the/DT cat/NN sat/VB"; "the/DT dog/NN ran/VB"; "cat/NN dog/NN"]
|}.

Definition flat_strategy : Strategy := {|
  is_TopicRankStrategy := false;
  token_ids := [];
  tag_separator := "/";
  stemmer := identity_stemmer;
  context := ["the/DT cat/NN sat/VB"; "the/DT dog/NN ran/VB"]
|}.

Definition example_ranker (criteria : ORDERING_CRITERIA) : TextRankRanker :=
  {| strategy := example_strategy; ordering_criteria := criteria |}.

Definition flat_ranker : TextRankRanker :=
  {| strategy := flat_strategy; ordering_criteria := POSITION |}.

Definition example_weights : list (string * Q) :=
  [("cat", 0.7%Q); ("the cat", 0.9%Q); ("dog", 0.8%Q)].


Definition learning_cluster : list string :=
  ["machine/NN learning/NN"; "learning/NN machine/NN"; "deep/JJ learning/NN"].

(** ** [weighting]

    Lines 141-166.  The ranking engine and the strategy's [set_clusters] are
    collaborators of [rankers.py]: [rank strategy candidates text] is the
    list of pairs that [self._textrank.rank(candidates, text)] returns when
    the strategy is in state [strategy], and [set_clusters strategy clusters]
    is the state of the strategy after [set_clusters(clusters)].  The result
    is the ranker with its strategy as [weighting] leaves it, and the
    dictionary [weighted_candidates]. *)

Section weighting.
Variable set_clusters : Strategy → list (list string) → Strategy.
Variable rank : Strategy → list string → string → list (string * Q).

Definition weighting (self : TextRankRanker) (full_text : string)
    (candidates : list string) (clusters : list (list string))
    : TextRankRanker * gmap string Q :=
  let self :=
    if is_TopicRankStrategy (strategy self)
    then {| strategy := set_clusters (strategy self) clusters;
            ordering_criteria := ordering_criteria self |}
    else self in
  let ranking := rank (strategy self) candidates full_text in
  (self,
   fold_left (λ weighted_candidates '(candidate, score),
       <[candidate := score]> weighted_candidates) ranking ∅).
End weighting.

(** ** More vocabulary *)

(** No character of [s] is whitespace. *)
Fixpoint no_space (s : string) : bool :=
  match s with
  | EmptyString => true
  | String a s' => negb (Ascii.is_space a) && no_space s'
  end.

(** A word: a non-empty string without whitespace. *)
Definition is_word (w : string) : Prop := w ≠ EmptyString ∧ no_space w = true.

(** The string that the loops of [rankers.py] build from a list of words:
    a space is put before a word unless nothing has been written yet. *)
Definition joined (ws : list string) : string :=
  fold_left (λ acc w,
      (if decide (acc ≠ EmptyString) then acc +:+ " " else acc) +:+ w)
    ws EmptyString.

(** Every word of [ws] with a space before it. *)
Definition spaced (ws : list string) : string :=
  foldr (λ w r, " " +:+ w +:+ r) EmptyString ws.

(** The loop of lines 249-251 from any initial value of [centroid], the
    fake-tagged cluster being the image of the cluster by [f]. *)
Definition centroid_of_loop_result (cluster : list string)
    (f : string → string) (c a0 : string) : string :=
  fold_left (λ centroid '(original, term),
      if decide (Some term = Some c) then original else centroid)
    (zip cluster (f <$> cluster)) a0.

(** Equality of floats is decidable. *)
Global Instance Qeq_decision (x y : Q) : Decision (x == y)%Q := Qeq_dec x y.

(** * Properties *)

(** ** The model on concrete inputs *)

Example split_ex : Str.split "  the cat  sat " = ["the"; "cat"; "sat"].
Proof. reflexivity. Qed.
Example find_ex1 : Str.find "the cat sat" "cat" = 4.
Proof. reflexivity. Qed.
Example find_ex2 : Str.find "the cat sat" "dog" = -1.
Proof. reflexivity. Qed.
Example find_ex3 : Str.find EmptyString EmptyString = 0.
Proof. reflexivity. Qed.
Example rsplit_ex1 : Str.rsplit1 "a/b/NN" "/" = Ok ["a/b"; "NN"].
Proof. reflexivity. Qed.
Example rsplit_ex2 : Str.rsplit1 "word" "/" = Ok ["word"].
Proof. reflexivity. Qed.
Example rsplit_ex3 : Str.rsplit1 "aaa" "aa" = Ok ["a"; EmptyString].
Proof. reflexivity. Qed.
Example rsplit_ex4 : Str.rsplit1 "word" EmptyString = Raise ValueError.
Proof. reflexivity. Qed.

Example untagged_ex : untagged "/" "the/DT cat/NN sat/VB" = Ok "the cat sat".
Proof. reflexivity. Qed.
Example fake_pos_tagged_ex : fake_pos_tagged "/" "the cat" = "the/fk cat/fk".
Proof. reflexivity. Qed.
Example stemming_ex :
  pos_tagged_term_stemming "the/DT cat/NN" "/" identity_stemmer = Ok "the cat".
Proof. reflexivity. Qed.

(** With the similarity function unbound every average is 0 and the
    centroid is the first member. *)
Example centroid_unbound_ex :
  cluster_centroid unbound_similarity learning_cluster "/" identity_stemmer =
  Ok (Some "machine/NN learning/NN").
Proof. vm_compute. reflexivity. Qed.

(** Two members share the greatest average, 5/3: the first one is kept. *)
Example centroid_tie_ex :
  cluster_centroid shared_words_similarity learning_cluster "/"
    identity_stemmer = Ok (Some "machine/NN learning/NN") ∧
  member_average shared_words_similarity learning_cluster "/"
    identity_stemmer <$> learning_cluster =
  [Ok (5 # 3)%Q; Ok (5 # 3)%Q; Ok (4 # 3)%Q].
Proof. split; vm_compute; reflexivity. Qed.

Example analysis_ex :
  (λ a, (sentence_length_accumulator a,
         first_positions a !! "cat", first_positions a !! "dog",
         frequency a !! "cat", frequency a !! "dog",
         first_positions a !! "bird", frequency a !! "bird")) <$>
  (match position_frequency_analysis "/" (context example_strategy)
           ["cat"; "dog"; "bird"] with
   | Ok a => Some a
   | Raise _ => None
   end) =
  Some (29, Some 5, Some 16, Some 2, Some 2, None, None).
Proof. vm_compute. reflexivity. Qed.

Example cluster_ordering_centroid_ex :
  cluster_ordering shared_words_similarity (example_ranker CENTROID)
    ["cat"; "the cat"; "a cat"] = Ok ["the cat"; "a cat"; "cat"].
Proof. vm_compute. reflexivity. Qed.

(** The end-to-end scenario of the specification, without clusters. *)
Example ordering_flat_ex :
  ordering unbound_similarity flat_ranker [("cat", 0.7%Q); ("dog", 0.3%Q)]
    [["cat"]; ["dog"]] = Ok [("cat", 0.7%Q); ("dog", 0.3%Q)].
Proof. vm_compute. reflexivity. Qed.

(** Equal scores keep the order of [weights.items()]. *)
Example ordering_flat_ties_ex :
  ordering unbound_similarity flat_ranker
    [("cat", 0.3%Q); ("the cat", 0.9%Q); ("dog", 0.3%Q); ("x", 1%Q)] [] =
  Ok [("x", 1%Q); ("the cat", 0.9%Q); ("cat", 0.3%Q); ("dog", 0.3%Q)].
Proof. vm_compute. reflexivity. Qed.

Example ordering_clusters_ex :
  ordering unbound_similarity (example_ranker POSITION) example_weights [] =
  Ok [("the cat", 0.9%Q); ("dog", 0.8%Q)].
Proof. vm_compute. reflexivity. Qed.

(** ** The [result] monad and the loops *)

Lemma bind_Ok {A B : Type} (r : result A) (f : A → result B) (b : B) :
  r ≫= f = Ok b ↔ ∃ a, r = Ok a ∧ f a = Ok b.
Proof.
  destruct r as [a|e]; simpl; split.
  - intros H. exists a. done.
  - by intros (a' & [= <-] & H).
  - done.
  - by intros (a' & ? & _).
Qed.

Lemma for_each_app {A S : Type} (body : S → A → result S) s l1 l2 :
  for_each body s (l1 ++ l2) = s' ← for_each body s l1; for_each body s' l2.
Proof.
  revert s. induction l1 as [|x l1 IH]; intros s; simpl; [done|].
  destruct (body s x) as [s'|e]; simpl; [apply IH|done].
Qed.

(** A loop whose body never raises is a [fold_left]. *)
Lemma for_each_pure {A S : Type} (body : S → A → result S) (f : S → A → S)
    s l :
  (∀ s x, x ∈ l → body s x = Ok (f s x)) →
  for_each body s l = Ok (fold_left f l s).
Proof.
  revert s. induction l as [|x l IH]; intros s Hb; simpl; [done|].
  rewrite Hb by left. simpl. apply IH. intros. apply Hb. by right.
Qed.

Lemma mapM_pure {A B : Type} (f : A → result B) (g : A → B) (l : list A) :
  (∀ x, x ∈ l → f x = Ok (g x)) → mapM f l = Ok (g <$> l).
Proof.
  induction l as [|x l IH]; intros Hf; simpl; [done|].
  rewrite Hf by left. simpl. rewrite IH; [done|].
  intros. apply Hf. by right.
Qed.

Lemma mapM_Ok_length {A B : Type} (f : A → result B) (l : list A) ks :
  mapM f l = Ok ks → Forall2 (λ x k, f x = Ok k) l ks.
Proof.
  revert ks. induction l as [|x l IH]; intros ks; simpl.
  - intros [= <-]. constructor.
  - destruct (f x) as [k|e] eqn:Hk; simpl; [|done].
    destruct (mapM f l) as [ks'|e]; simpl; [|done].
    intros [= <-]. constructor; [done|]. by apply IH.
Qed.

(** A key that raises makes [mapM] raise: the first failing key decides. *)
Lemma mapM_raise {A B : Type} (f : A → result B) (l : list A) x e :
  x ∈ l → f x = Raise e →
  (∀ y e', y ∈ l → f y = Raise e' → e' = e) →
  mapM f l = Raise e.
Proof.
  induction l as [|y l IH]; intros Hx Hfx Hall; [by inversion Hx|].
  simpl. destruct (f y) as [k|e'] eqn:Hy; simpl.
  - assert (x ∈ l) as Hxl.
    { inversion Hx; subst; [congruence|done]. }
    rewrite IH; [done..|]. intros. eapply Hall; [by right|done].
  - f_equal. eapply Hall; [by left|done].
Qed.

(** ** Sorting *)

Section sorted_facts.
Context {K A : Type} (leb : K → K → bool).
Hypothesis leb_total : ∀ x y, leb x y = true ∨ leb y x = true.
Hypothesis leb_trans : ∀ x y z,
  leb x y = true → leb y z = true → leb x z = true.

Let R (x y : K * A) : Prop := leb x.1 y.1 = true.

Lemma insert_sorted_perm (x : K * A) l : insert_sorted leb x l ≡ₚ x :: l.
Proof.
  induction l as [|y l IH]; simpl; [done|].
  destruct (leb x.1 y.1); [done|]. rewrite IH. apply Permutation_swap.
Qed.

Lemma stable_sort_perm (l : list (K * A)) : stable_sort leb l ≡ₚ l.
Proof.
  induction l as [|x l IH]; simpl; [done|].
  rewrite insert_sorted_perm. by rewrite IH.
Qed.

Lemma insert_sorted_sorted (x : K * A) l :
  StronglySorted R l → StronglySorted R (insert_sorted leb x l).
Proof.
  induction 1 as [|y l Hl IH Hy]; simpl.
  - repeat constructor.
  - destruct (leb x.1 y.1) eqn:Hxy.
    + constructor; [by constructor|].
      constructor; [done|].
      eapply Forall_impl; [exact Hy|]. intros z Hz. unfold R in *. eauto.
    + constructor; [done|].
      rewrite insert_sorted_perm. constructor; [|done].
      unfold R. destruct (leb_total x.1 y.1); congruence.
Qed.

Lemma stable_sort_sorted (l : list (K * A)) :
  StronglySorted R (stable_sort leb l).
Proof.
  induction l as [|x l IH]; simpl; [constructor|].
  by apply insert_sorted_sorted.
Qed.

(** [sorted] with a key that does not raise: a permutation of its
    argument, sorted by the key. *)
Lemma sorted_pure (key : A → result K) (k : A → K) (l : list A) :
  (∀ x, x ∈ l → key x = Ok (k x)) →
  ∃ l', sorted leb key l = Ok l' ∧ l' ≡ₚ l ∧
        StronglySorted (λ x y, leb (k x) (k y) = true) l'.
Proof.
  intros Hkey. unfold sorted. rewrite (mapM_pure _ k) by done. simpl.
  eexists; split; [done|].
  assert (zip (k <$> l) l = (λ x, (k x, x)) <$> l) as ->.
  { clear. induction l; simpl; [done|]. by f_equal. }
  set (d := (λ x, (k x, x)) <$> l).
  assert (Forall (λ p, p.1 = k p.2) (stable_sort leb d)) as Hdec.
  { rewrite stable_sort_perm. unfold d. apply Forall_fmap.
    by apply Forall_true. }
  split.
  - rewrite stable_sort_perm. unfold d. rewrite <-list_fmap_compose.
    by rewrite list_fmap_id.
  - pose proof (stable_sort_sorted d) as Hs.
    induction Hs as [|p l' Hl' IH Hp]; simpl; [constructor|].
    apply Forall_cons in Hdec as [Hp1 Hdec].
    constructor; [by apply IH|].
    apply Forall_fmap. rewrite Forall_forall in Hp, Hdec.
    apply Forall_forall. intros q Hq. simpl.
    rewrite <-Hp1, <-(Hdec q Hq). by apply Hp.
Qed.

Lemma sorted_Ok_inv (key : A → result K) (l l' : list A) :
  sorted leb key l = Ok l' → ∀ x, x ∈ l → ∃ k, key x = Ok k.
Proof.
  unfold sorted. intros (ks & Hks & _)%bind_Ok x Hx.
  apply mapM_Ok_length in Hks.
  apply list_elem_of_lookup in Hx as [i Hi].
  destruct (Forall2_lookup_l _ _ _ _ _ Hks Hi) as (k & _ & Hk). eauto.
Qed.
End sorted_facts.

(** The sort is stable: the elements of a class of equal keys keep their
    relative order. *)
Section sorted_stable.
Context {K A : Type} (leb : K → K → bool).
Context (P : K * A → Prop) `{!∀ x, Decision (P x)}.
Hypothesis P_class : ∀ x y, P x → P y → leb x.1 y.1 = true.

Lemma insert_sorted_filter x l :
  filter P (insert_sorted leb x l) =
  if decide (P x) then x :: filter P l else filter P l.
Proof.
  induction l as [|y l IH]; simpl insert_sorted.
  - by rewrite filter_cons.
  - destruct (leb x.1 y.1) eqn:Hxy; [by rewrite filter_cons|].
    rewrite !(filter_cons _ y), IH.
    destruct (decide (P x)) as [Hx|Hx]; [|done].
    destruct (decide (P y)) as [Hy|Hy]; [|done].
    rewrite P_class in Hxy by done. done.
Qed.

Lemma stable_sort_stable l : filter P (stable_sort leb l) = filter P l.
Proof.
  induction l as [|x l IH]; [done|]. simpl stable_sort.
  by rewrite insert_sorted_filter, filter_cons, IH.
Qed.
End sorted_stable.

Lemma tuple_leb_total x y : tuple_leb x y = true ∨ tuple_leb y x = true.
Proof. unfold tuple_leb. destruct x, y; simpl. lia. Qed.

Lemma tuple_leb_trans x y z :
  tuple_leb x y = true → tuple_leb y z = true → tuple_leb x z = true.
Proof. unfold tuple_leb. destruct x, y, z; simpl. lia. Qed.

Lemma float_geb_total x y : float_geb x y = true ∨ float_geb y x = true.
Proof.
  unfold float_geb. rewrite !Qle_bool_iff.
  destruct (Qlt_le_dec x y); [right|left]; [by apply Qlt_le_weak|done].
Qed.

Lemma float_geb_trans x y z :
  float_geb x y = true → float_geb y z = true → float_geb x z = true.
Proof.
  unfold float_geb. rewrite !Qle_bool_iff. intros. by eapply Qle_trans.
Qed.

Lemma sorted_Ok_perm {K A : Type} (leb : K → K → bool) (key : A → result K)
    (l l' : list A) :
  sorted leb key l = Ok l' → l' ≡ₚ l.
Proof.
  unfold sorted. intros (ks & Hks & [= <-])%bind_Ok.
  apply mapM_Ok_length, Forall2_length in Hks.
  rewrite stable_sort_perm. by rewrite snd_zip by lia.
Qed.

Lemma StronglySorted_adjacent {A : Type} (R : A → A → Prop) (l : list A) i x y :
  StronglySorted R l → l !! i = Some x → l !! S i = Some y → R x y.
Proof.
  intros Hs. revert i. induction Hs as [|z l Hl IH Hz]; intros i; [done|].
  destruct i as [|i]; simpl.
  - intros [= ->] Hy. rewrite Forall_forall in Hz. apply Hz.
    by eapply list_elem_of_lookup_2.
  - apply IH.
Qed.

(** ** The global orderer *)

Lemma sorted_by_score_descending (rows l : list (string * Q)) :
  sorted float_geb (λ row, Ok row.2) rows = Ok l → descending l.
Proof.
  intros Hl.
  destruct (sorted_pure float_geb float_geb_total float_geb_trans
              (λ row : string * Q, Ok row.2) snd rows) as (l' & Hl' & _ & Hs);
    [done|].
  rewrite Hl in Hl'. injection Hl' as <-.
  intros i x y Hx Hy.
  pose proof (StronglySorted_adjacent _ _ _ _ _ Hs Hx Hy) as H.
  by apply Qle_bool_iff in H.
Qed.

(** Without clusters the orderer always returns. *)
Lemma ordering_flat_total sim self weights clusters :
  is_TopicRankStrategy (strategy self) = false →
  ∃ l, ordering sim self weights clusters = Ok l ∧ l ≡ₚ weights.
Proof.
  intros Hs. unfold ordering. rewrite Hs. simpl.
  destruct (sorted_pure float_geb float_geb_total float_geb_trans
              (λ row : string * Q, Ok row.2) snd weights) as (l & Hl & Hp & _);
    [done|].
  eauto.
Qed.

(** C1. The sequence returned by [ordering] has non-increasing scores, for
    every weight map and cluster list, with and without clusters: each entry
    scores at least as much as the entry after it. *)
Theorem ordering_descending sim self weights clusters l :
  ordering sim self weights clusters = Ok l → descending l.
Proof.
  unfold ordering. destruct (negb _).
  - apply sorted_by_score_descending.
  - intros (rows & _ & Hl)%bind_Ok. by eapply sorted_by_score_descending.
Qed.

(** C9. With a cluster-aware strategy the result of [ordering] is the same
    for any two values of its [clusters] argument: the clusters are read from
    the strategy's token grouping. *)
Theorem ordering_ignores_clusters sim self weights clusters1 clusters2 :
  is_TopicRankStrategy (strategy self) = true →
  ordering sim self weights clusters1 = ordering sim self weights clusters2.
Proof. intros Hs. unfold ordering. by rewrite Hs. Qed.

(** ** The cluster orderer returns a rearrangement of the cluster *)

Lemma cluster_ordering_perm sim self cluster l :
  cluster_ordering sim self cluster = Ok l → l ≡ₚ cluster.
Proof.
  unfold cluster_ordering.
  intros (tagged_centroid & _ & (a & _ & Hl)%bind_Ok)%bind_Ok.
  destruct (ordering_criteria self); by eapply sorted_Ok_perm.
Qed.

Lemma untag_loop_Ok sep (cluster acc out : list string) :
  for_each (λ untagged_cluster term,
      untagged_term ← untagged sep term;
      Ok (untagged_cluster ++ [untagged_term])) acc cluster = Ok out →
  ∃ us, out = acc ++ us ∧
        Forall2 (λ term u, untagged sep term = Ok u) cluster us.
Proof.
  revert acc. induction cluster as [|term cluster IH]; intros acc; simpl.
  - intros [= <-]. exists []. by rewrite app_nil_r.
  - intros (acc' & (u & Hu & [= <-])%bind_Ok & Hout)%bind_Ok.
    destruct (IH _ Hout) as (us & -> & Hus).
    exists (u :: us). rewrite <-app_assoc. split; [done|]. by constructor.
Qed.

Lemma representatives_loop_Ok sim self weights clusters acc out :
  for_each (λ ordered_terms cluster,
      untagged_cluster ← for_each (λ untagged_cluster term,
          untagged_term ← untagged (tag_separator (strategy self)) term;
          Ok (untagged_cluster ++ [untagged_term]))
        [] cluster;
      untagged_cluster ← cluster_ordering sim self untagged_cluster;
      cluster_keyphrase ← getitem untagged_cluster 0;
      cluster_score ← dict_getitem weights cluster_keyphrase;
      Ok (ordered_terms ++ [(cluster_keyphrase, cluster_score)]))
    acc clusters = Ok out →
  ∃ reps, out = acc ++ reps ∧
    Forall2 (represents (tag_separator (strategy self)) weights) clusters reps.
Proof.
  revert acc. induction clusters as [|cluster clusters IH]; intros acc; simpl.
  - intros [= <-]. exists []. by rewrite app_nil_r.
  - intros (acc' & Hbody & Hout)%bind_Ok.
    apply bind_Ok in Hbody as (uc & Huc & Hbody).
    apply bind_Ok in Hbody as (oc & Hoc & Hbody).
    apply bind_Ok in Hbody as (kp & Hkp & Hbody).
    apply bind_Ok in Hbody as (sc & Hsc & [= <-]).
    destruct (IH _ Hout) as (reps & -> & Hreps).
    exists ((kp, sc) :: reps). rewrite <-app_assoc. split; [done|].
    constructor; [|done]. split; [|done]. simpl.
    apply untag_loop_Ok in Huc as (us & -> & Hus). simpl in Hoc.
    unfold getitem in Hkp. destruct (oc !! 0%nat) as [k|] eqn:Hk; [|done].
    injection Hkp as ->.
    apply list_elem_of_lookup_2 in Hk.
    rewrite (cluster_ordering_perm _ _ _ _ Hoc) in Hk.
    apply list_elem_of_lookup in Hk as [i Hi].
    destruct (Forall2_lookup_r _ _ _ _ _ Hus Hi) as (term & Hterm & Hu).
    exists term. split; [|done]. by eapply list_elem_of_lookup_2.
Qed.

(** C2. With a cluster-aware strategy, the output of [ordering] has exactly
    one entry per cluster of the strategy's token grouping: it is a
    rearrangement of a list that pairs every cluster with one entry, whose
    phrase is the untagged form of a member of that cluster (and whose score
    is the weight of that phrase). *)
Theorem ordering_one_entry_per_cluster sim self weights clusters l :
  is_TopicRankStrategy (strategy self) = true →
  ordering sim self weights clusters = Ok l →
  length l = length (token_ids (strategy self)) ∧
  ∃ reps, l ≡ₚ reps ∧
    Forall2 (represents (tag_separator (strategy self)) weights)
      (token_ids (strategy self)) reps.
Proof.
  intros Hs. unfold ordering. rewrite Hs. simpl.
  intros (rows & Hrows & Hl)%bind_Ok.
  apply representatives_loop_Ok in Hrows as (reps & -> & Hreps).
  apply sorted_Ok_perm in Hl. simpl in Hl. split.
  - rewrite Hl. symmetry. by eapply Forall2_length.
  - by exists reps.
Qed.

(** ** Loops that cannot raise, loops that raise *)

Lemma for_each_total {A S : Type} (body : S → A → result S) s l :
  (∀ s x, ∃ s', body s x = Ok s') → ∃ s', for_each body s l = Ok s'.
Proof.
  intros Hb. revert s. induction l as [|x l IH]; intros s; simpl; [eauto|].
  destruct (Hb s x) as [s' ->]. simpl. apply IH.
Qed.

Lemma for_each_raise_inv {A S : Type} (P : exn → Prop)
    (body : S → A → result S) s l e :
  (∀ s x e, body s x = Raise e → P e) → for_each body s l = Raise e → P e.
Proof.
  intros Hb. revert s. induction l as [|x l IH]; intros s; simpl; [done|].
  destruct (body s x) as [s'|e'] eqn:Hx; simpl.
  - apply IH.
  - intros [= <-]. eauto.
Qed.

Lemma for_each_ext {A S : Type} (body1 body2 : S → A → result S) s l :
  (∀ s x, body1 s x = body2 s x) → for_each body1 s l = for_each body2 s l.
Proof.
  intros Hb. revert s. induction l as [|x l IH]; intros s; simpl; [done|].
  rewrite Hb. destruct (body2 s x); simpl; [apply IH|done].
Qed.

(** ** Tag stripping and stemming *)

Lemma rsplit1_head_total wt sep :
  sep ≠ EmptyString →
  ∃ w, (parts ← Str.rsplit1 wt sep; getitem parts 0) = Ok w.
Proof.
  intros Hsep. unfold Str.rsplit1. destruct (decide (sep = EmptyString)) as [|_]; [done|].
  destruct (Str.rsplit_last wt sep) as [[a b]|]; simpl; eauto.
Qed.

Lemma rsplit1_head_raise wt sep e :
  (parts ← Str.rsplit1 wt sep; getitem parts 0) = Raise e →
  sep = EmptyString ∧ e = ValueError.
Proof.
  unfold Str.rsplit1. destruct (decide (sep = EmptyString)) as [->|_]; simpl.
  - by intros [= <-].
  - by destruct (Str.rsplit_last wt sep) as [[a b]|].
Qed.

Lemma pos_tagged_term_stemming_total term sep stemmer :
  sep ≠ EmptyString → ∃ stem, pos_tagged_term_stemming term sep stemmer = Ok stem.
Proof.
  intros Hsep. apply for_each_total. intros stem wt.
  destruct (rsplit1_head_total wt sep Hsep) as [w Hw].
  unfold Str.rsplit1 in *. destruct (decide (sep = EmptyString)); [done|].
  destruct (Str.rsplit_last wt sep) as [[a b]|]; simpl; eauto.
Qed.

Lemma pos_tagged_term_stemming_raise term sep stemmer e :
  pos_tagged_term_stemming term sep stemmer = Raise e →
  sep = EmptyString ∧ e = ValueError.
Proof.
  apply (for_each_raise_inv (λ e, sep = EmptyString ∧ e = ValueError)).
  intros stem wt e'. unfold Str.rsplit1. destruct (decide (sep = EmptyString)) as [->|_]; simpl.
  - by intros [= <-].
  - by destruct (Str.rsplit_last wt sep) as [[a b]|].
Qed.

Lemma untagged_total sep sentence :
  sep ≠ EmptyString → ∃ u, untagged sep sentence = Ok u.
Proof.
  intros Hsep. apply for_each_total. intros u wt.
  unfold Str.rsplit1. destruct (decide (sep = EmptyString)); [done|].
  destruct (Str.rsplit_last wt sep) as [[a b]|]; simpl; eauto.
Qed.

Lemma untagged_raise sep sentence e :
  untagged sep sentence = Raise e → sep = EmptyString ∧ e = ValueError.
Proof.
  apply (for_each_raise_inv (λ e, sep = EmptyString ∧ e = ValueError)).
  intros stem wt e'. unfold Str.rsplit1. destruct (decide (sep = EmptyString)) as [->|_]; simpl.
  - by intros [= <-].
  - by destruct (Str.rsplit_last wt sep) as [[a b]|].
Qed.

(** ** [find] returns the first match *)

Lemma find_range s sub : Str.find s sub = -1 ∨ 0 ≤ Str.find s sub ≤ Str.len s.
Proof.
unfold Str.len. induction s as [|c s IH]; cbn [Str.find String.length].
- destruct (String.prefix sub EmptyString); lia.
- destruct (String.prefix sub (String c s)); [lia|].
  destruct (Z.ltb_spec (Str.find s sub) 0); lia.
Qed.

(** At the index returned, [sub] is a prefix of the rest of [s]. *)
Lemma find_match s sub :
  0 ≤ Str.find s sub →
  String.prefix sub (Str.drop (Z.to_nat (Str.find s sub)) s) = true.
Proof.
induction s as [|c s IH]; cbn [Str.find].
- destruct (String.prefix sub EmptyString) eqn:Hp; [done|lia].
- destruct (String.prefix sub (String c s)) eqn:Hp; [done|].
  destruct (Z.ltb_spec (Str.find s sub) 0) as [Hlt|Hge]; [lia|].
  intros _. replace (Z.to_nat (Str.find s sub + 1))
    with (S (Z.to_nat (Str.find s sub))) by lia.
  cbn [Str.drop]. by apply IH.
Qed.

(** At no smaller index is [sub] a prefix of the rest of [s]. *)
Lemma find_first s sub (j : nat) :
  0 ≤ Str.find s sub → Z.of_nat j < Str.find s sub →
  String.prefix sub (Str.drop j s) = false.
Proof.
revert j. induction s as [|c s IH]; intros j; cbn [Str.find].
- destruct (String.prefix sub EmptyString) eqn:Hp; lia.
- destruct (String.prefix sub (String c s)) eqn:Hp; [lia|].
  destruct (Z.ltb_spec (Str.find s sub) 0) as [Hlt|Hge]; [lia|].
  intros _ Hj. destruct j as [|j]; [done|]. cbn [Str.drop]. apply IH; lia.
Qed.

(** When nothing is found, [sub] is a prefix at no index. *)
Lemma find_none s sub (j : nat) :
  Str.find s sub < 0 → String.prefix sub (Str.drop j s) = false.
Proof.
revert j. induction s as [|c s IH]; intros j; cbn [Str.find].
- destruct (String.prefix sub EmptyString) eqn:Hp; [lia|]. by destruct j.
- destruct (String.prefix sub (String c s)) eqn:Hp; [lia|].
  destruct (Z.ltb_spec (Str.find s sub) 0) as [Hlt|Hge]; [|lia].
  intros _. destruct j as [|j]; [done|]. cbn [Str.drop]. by apply IH.
Qed.

(** ** The centroid *)

Section centroid.
Variable sim : string → string → option Q.
Variables (sep : string) (stemmer : string → string).

Lemma average_similarity_total cluster stem1 :
  sep ≠ EmptyString →
  ∃ q, average_similarity sim cluster sep stemmer stem1 = Ok q.
Proof.
  intros Hsep. unfold average_similarity.
  edestruct (for_each_total (λ similarity term2,
      stem2 ← pos_tagged_term_stemming term2 sep stemmer;
      match sim stem1 stem2 with
      | Some v => Ok (similarity + v)%Q
      | None => Ok (similarity + 0)%Q
      end) 0%Q cluster) as [q ->]; [|simpl; eauto].
  intros q term2.
  destruct (pos_tagged_term_stemming_total term2 sep stemmer Hsep) as [s ->].
  simpl. destruct (sim stem1 s); eauto.
Qed.

Lemma average_similarity_raise cluster stem1 e :
  average_similarity sim cluster sep stemmer stem1 = Raise e →
  sep = EmptyString ∧ e = ValueError.
Proof.
  unfold average_similarity.
  destruct (for_each _ _ cluster) as [q|e'] eqn:Hloop; simpl; [done|].
  intros [= <-]. revert Hloop.
  apply (for_each_raise_inv (λ e, sep = EmptyString ∧ e = ValueError)).
  intros q term2 e.
  destruct (pos_tagged_term_stemming term2 sep stemmer) as [s|e2] eqn:Hs;
    simpl.
  - by destruct (sim stem1 s).
  - intros [= <-]. by eapply pos_tagged_term_stemming_raise.
Qed.

Lemma member_average_total cluster term1 :
  sep ≠ EmptyString → ∃ q, member_average sim cluster sep stemmer term1 = Ok q.
Proof.
  intros Hsep. unfold member_average.
  destruct (pos_tagged_term_stemming_total term1 sep stemmer Hsep) as [s ->].
  simpl. by apply average_similarity_total.
Qed.

Lemma member_average_raise cluster term1 e :
  member_average sim cluster sep stemmer term1 = Raise e →
  sep = EmptyString ∧ e = ValueError.
Proof.
  unfold member_average.
  destruct (pos_tagged_term_stemming term1 sep stemmer) as [s|e1] eqn:Hs;
    simpl.
  - apply average_similarity_raise.
  - intros [= <-]. by eapply pos_tagged_term_stemming_raise.
Qed.



(** The average in closed form: the similarities of the stem of [term1] to
the stems of all the members of the cluster, [term1] included, a failed
computation counting for 0, summed from left to right and divided by the
size of the cluster. *)
Lemma similarity_loop_sum cluster stems stem1 q0 :
  Forall2 (λ u s, pos_tagged_term_stemming u sep stemmer = Ok s)
    cluster stems →
  for_each (λ similarity term2,
      stem2 ← pos_tagged_term_stemming term2 sep stemmer;
      match sim stem1 stem2 with
      | Some v => Ok (similarity + v)%Q
      | None => Ok (similarity + 0)%Q
      end) q0 cluster =
  Ok (fold_left (λ acc stem2, (acc + default 0 (sim stem1 stem2))%Q)
        stems q0).
Proof.
intros Hstems. revert q0.
induction Hstems as [|u s cluster stems Hu _ IH]; intros q0; [done|].
cbn [for_each fold_left]. rewrite Hu. simpl.
destruct (sim stem1 s); simpl; apply IH.
Qed.

Lemma member_average_sum cluster stems term1 stem1 :
  pos_tagged_term_stemming term1 sep stemmer = Ok stem1 →
  Forall2 (λ u s, pos_tagged_term_stemming u sep stemmer = Ok s)
    cluster stems →
  member_average sim cluster sep stemmer term1 =
  Ok (fold_left (λ acc stem2, (acc + default 0 (sim stem1 stem2))%Q)
        stems 0 / inject_Z (Z.of_nat (length cluster)))%Q.
Proof.
intros Hstem1 Hstems. unfold member_average, average_similarity.
rewrite Hstem1. simpl. by rewrite (similarity_loop_sum cluster stems).
Qed.
End centroid.

Lemma float_gtb_true x y : float_gtb x y = true ↔ (y < x)%Q.
Proof.
  unfold float_gtb. rewrite negb_true_iff, <-not_true_iff_false, Qle_bool_iff.
  split; [apply Qnot_le_lt|apply Qlt_not_le].
Qed.

Lemma float_gtb_false x y : float_gtb x y = false ↔ (x <= y)%Q.
Proof. unfold float_gtb. by rewrite negb_false_iff, Qle_bool_iff. Qed.

Section centroid_scan.
Variable sim : string → string → option Q.
Variables (sep : string) (stemmer : string → string).
Variable cluster : list string.

Let avg := member_average sim cluster sep stemmer.
Let body := λ '(centroid, max_similarity) term1,
  stem1 ← pos_tagged_term_stemming term1 sep stemmer;
  similarity ← average_similarity sim cluster sep stemmer stem1;
  if float_gtb similarity max_similarity
  then Ok (Some term1, similarity)
  else Ok (centroid, max_similarity).

Lemma centroid_body_Ok c0 m0 t st :
  body (c0, m0) t = Ok st →
  ∃ q, avg t = Ok q ∧
       st = if float_gtb q m0 then (Some t, q) else (c0, m0).
Proof.
  unfold body, avg, member_average.
  intros (s & Hs & (q & Hq & Hst)%bind_Ok)%bind_Ok.
  rewrite Hs. simpl. rewrite Hq.
  exists q. split; [done|]. by destruct (float_gtb q m0); injection Hst.
Qed.

(** The scan keeps the first member whose average is greater than the
    averages of all the members before it and than the initial bound. *)
Lemma centroid_scan l c0 m0 c m :
  for_each body (c0, m0) l = Ok (c, m) →
  ((c, m) = (c0, m0) ∧ ∀ t q, t ∈ l → avg t = Ok q → (q <= m0)%Q) ∨
  (∃ i t, l !! i = Some t ∧ c = Some t ∧ avg t = Ok m ∧ (m0 < m)%Q ∧
     ∀ j t' q', l !! j = Some t' → avg t' = Ok q' →
       (q' <= m)%Q ∧ ((j < i)%nat → (q' < m)%Q)).
Proof.
  revert c0 m0. induction l as [|x l IH]; intros c0 m0.
  - simpl. intros [= <- <-]. left. split; [done|]. by intros t q ?%elem_of_nil.
  - simpl. intros (st & Hst & Hloop)%bind_Ok.
    apply centroid_body_Ok in Hst as (qx & Hqx & ->).
    destruct (float_gtb qx m0) eqn:Hgt.
    + apply float_gtb_true in Hgt.
      destruct (IH _ _ Hloop) as [[[= -> ->] Hle]|(i & t & Hi & -> & Ht & Hlt & Hall)].
      * right. exists 0%nat, x. do 4 (split; [done|]).
        intros [|j] t' q' Hj Hq'; simpl in Hj.
        -- injection Hj as <-. rewrite Hqx in Hq'. injection Hq' as <-.
           split; [apply Qle_refl|lia].
        -- split; [|lia]. eapply Hle; [|done]. by eapply list_elem_of_lookup_2.
      * right. exists (S i), t. do 3 (split; [done|]).
        split; [by eapply Qlt_trans|].
        intros [|j] t' q' Hj Hq'; simpl in Hj.
        -- injection Hj as <-. rewrite Hqx in Hq'. injection Hq' as <-.
           split; [by apply Qlt_le_weak|done].
        -- destruct (Hall _ _ _ Hj Hq') as [? Hji]. split; [done|].
           intros ?. apply Hji. lia.
    + apply float_gtb_false in Hgt.
      destruct (IH _ _ Hloop) as [[[= -> ->] Hle]|(i & t & Hi & -> & Ht & Hlt & Hall)].
      * left. split; [done|]. intros t q [->|Ht]%elem_of_cons Hq.
        -- rewrite Hqx in Hq. by injection Hq as <-.
        -- by eapply Hle.
      * right. exists (S i), t. do 4 (split; [done|]).
        intros [|j] t' q' Hj Hq'; simpl in Hj.
        -- injection Hj as <-. rewrite Hqx in Hq'. injection Hq' as <-.
           assert (qx < m)%Q by (by eapply Qle_lt_trans).
           split; [by apply Qlt_le_weak|done].
        -- destruct (Hall _ _ _ Hj Hq') as [? Hji]. split; [done|].
           intros ?. apply Hji. lia.
Qed.

Lemma cluster_centroid_unfold :
  cluster_centroid sim cluster sep stemmer =
  (st ← for_each body (None, (-1)%Q) cluster; Ok st.1).
Proof. reflexivity. Qed.

Lemma centroid_loop_total c0 m0 l :
  sep ≠ EmptyString → ∃ st, for_each body (c0, m0) l = Ok st.
Proof.
  intros Hsep. apply for_each_total. intros [c m] t. unfold body.
  destruct (pos_tagged_term_stemming_total t sep stemmer Hsep) as [s ->].
  simpl.
  destruct (average_similarity_total sim sep stemmer cluster s Hsep)
    as [q ->].
  simpl. destruct (float_gtb q m); eauto.
Qed.

Lemma centroid_loop_raise c0 m0 l e :
  for_each body (c0, m0) l = Raise e → sep = EmptyString ∧ e = ValueError.
Proof.
  apply (for_each_raise_inv (λ e, sep = EmptyString ∧ e = ValueError)).
  intros [c m] t e'. unfold body.
  destruct (pos_tagged_term_stemming t sep stemmer) as [s|e1] eqn:Hs; simpl.
  - destruct (average_similarity sim cluster sep stemmer s) as [q|e2] eqn:Hq;
      simpl.
    + by destruct (float_gtb q m).
    + intros [= <-]. by eapply average_similarity_raise.
  - intros [= <-]. by eapply pos_tagged_term_stemming_raise.
Qed.
End centroid_scan.


(** C8. A similarity computation that fails inside [cluster_centroid] counts
    for exactly 0: the averages and the centroid are those obtained with a
    similarity function that returns 0.0 wherever the given one raises.  No
    failure of the similarity function leaves [cluster_centroid]: with a
    non-empty tag separator it returns for every similarity function, and
    the only exception it can raise is the [ValueError] of an empty
    separator. *)
Theorem cluster_centroid_failure_is_zero sim cluster sep stemmer :
  (∀ stem1, average_similarity sim cluster sep stemmer stem1 =
            average_similarity (zero_on_failure sim) cluster sep stemmer stem1) ∧
  cluster_centroid sim cluster sep stemmer =
    cluster_centroid (zero_on_failure sim) cluster sep stemmer ∧
  (sep ≠ EmptyString → ∃ c, cluster_centroid sim cluster sep stemmer = Ok c) ∧
  (∀ e, cluster_centroid sim cluster sep stemmer = Raise e →
        sep = EmptyString ∧ e = ValueError).
Proof.
  assert (∀ cl stem1, average_similarity sim cl sep stemmer stem1 =
            average_similarity (zero_on_failure sim) cl sep stemmer stem1)
    as Havg.
  { intros cl stem1. unfold average_similarity. f_equal.
    apply for_each_ext. intros q term2.
    destruct (pos_tagged_term_stemming term2 sep stemmer) as [s|]; simpl;
      [|done].
    unfold zero_on_failure. by destruct (sim stem1 s). }
  split; [apply Havg|]. split; [|split].
  - unfold cluster_centroid. f_equal. apply for_each_ext. intros [c m] t.
    destruct (pos_tagged_term_stemming t sep stemmer) as [s|]; simpl; [|done].
    by rewrite Havg.
  - intros Hsep. rewrite cluster_centroid_unfold.
    destruct (centroid_loop_total sim sep stemmer cluster None (-1)%Q cluster
                Hsep) as [st ->].
    simpl. eauto.
  - intros e. rewrite cluster_centroid_unfold.
    destruct (for_each _ _ cluster) as [st|e'] eqn:Hloop; simpl; [done|].
    intros [= <-]. by eapply centroid_loop_raise.
Qed.

(** ** The position and frequency analysis *)

Lemma multiplicity_cons term cluster t :
  multiplicity (term :: cluster) t =
  (if decide (term = t) then 1 else 0) + multiplicity cluster t.
Proof.
  unfold multiplicity. rewrite filter_cons.
  destruct (decide (term = t)); simpl length; lia.
Qed.

Lemma multiplicity_nonneg cluster t : 0 ≤ multiplicity cluster t.
Proof. unfold multiplicity. lia. Qed.

Lemma multiplicity_pos cluster t : t ∈ cluster → 0 < multiplicity cluster t.
Proof.
  induction 1 as [t cluster|t term cluster _ IH];
    rewrite multiplicity_cons.
  - rewrite decide_True by done. pose proof (multiplicity_nonneg cluster t). lia.
  - destruct (decide (term = t)); lia.
Qed.

Lemma multiplicity_NoDup cluster t :
  NoDup cluster → t ∈ cluster → multiplicity cluster t = 1.
Proof.
  induction 1 as [|term cluster Hnotin _ IH]; [by intros ?%elem_of_nil|].
  rewrite multiplicity_cons. intros [->|Ht]%elem_of_cons.
  - rewrite decide_True by done.
    assert (multiplicity cluster term = 0) as ->; [|done].
    unfold multiplicity.
    destruct (filter (λ t', t' = term) cluster) as [|x l] eqn:Hf; [done|].
    assert (x ∈ filter (λ t', t' = term) cluster) as Hx by (rewrite Hf; left).
    apply list_elem_of_filter in Hx as [-> Hx]. done.
  - rewrite decide_False; [by rewrite IH|]. by intros ->.
Qed.

Lemma sentences_with_cons u us t :
  sentences_with (u :: us) t =
  (if occurs u t then 1 else 0) + sentences_with us t.
Proof.
  unfold sentences_with. rewrite filter_cons.
  destruct (decide (occurs u t)) as [H|H]; destruct (occurs u t);
    try done; simpl length; lia.
Qed.

Lemma sentences_with_nonneg us t : 0 ≤ sentences_with us t.
Proof. unfold sentences_with. lia. Qed.

Lemma sentences_with_zero us t :
  (∀ u, u ∈ us → Str.find u t < 0) → sentences_with us t = 0.
Proof.
  induction us as [|u us IH]; intros Hno; [done|].
  rewrite sentences_with_cons, IH by (intros; apply Hno; by right).
  assert (Str.find u t < 0) as Hu by (apply Hno; left).
  unfold occurs. destruct (Z.leb_spec 0 (Str.find u t)); lia.
Qed.

(** One term against one untagged sentence. *)
Lemma analyse_term_spec u a term :
  sentence_length_accumulator (analyse_term u a term) =
    sentence_length_accumulator a ∧
  ∀ t,
    first_positions (analyse_term u a term) !! t =
      match first_positions a !! t with
      | Some p => Some p
      | None => if decide (t = term ∧ occurs u t)
                then Some (sentence_length_accumulator a + (Str.find u t + 1))
                else None
      end ∧
    frequency (analyse_term u a term) !! t =
      if decide (t = term ∧ occurs u t)
      then Some (default 0 (frequency a !! t) + 1)
      else frequency a !! t.
Proof.
  unfold analyse_term. fold (occurs u term).
  destruct (occurs u term) eqn:Ho; simpl.
  - split; [done|]. intros t. split.
    + destruct (decide (is_Some (first_positions a !! term))) as [[p Hp]|Hn].
      * destruct (first_positions a !! t) eqn:Ht; [done|].
        rewrite decide_False; [done|]. intros [-> _]. congruence.
      * apply eq_None_not_Some in Hn. rewrite lookup_insert.
        destruct (decide (term = t)) as [<-|Hne].
        -- rewrite Hn, decide_True; [done|]. by rewrite Ho.
        -- destruct (first_positions a !! t); [done|].
           rewrite decide_False; [done|]. by intros [-> _].
    + rewrite lookup_alter. destruct (decide (term = t)) as [<-|Hne].
      * rewrite (decide_True (P := term = term ∧ _)) by (by rewrite Ho).
        destruct (decide (is_Some (frequency a !! term))) as [[n Hn]|Hn].
        -- by rewrite Hn.
        -- apply eq_None_not_Some in Hn. by rewrite lookup_insert_eq, Hn.
      * rewrite (decide_False (P := t = term ∧ _)) by (by intros [-> _]).
        destruct (decide (is_Some (frequency a !! term))); [done|].
        by rewrite lookup_insert_ne.
  - split; [done|]. intros t. split.
    + destruct (first_positions a !! t); [done|].
      rewrite decide_False; [done|]. intros [-> H]. by rewrite Ho in H.
    + rewrite decide_False; [done|]. intros [-> H]. by rewrite Ho in H.
Qed.

(** All the terms of the cluster against one untagged sentence. *)
Lemma analyse_terms_spec u cluster a :
  sentence_length_accumulator (fold_left (analyse_term u) cluster a) =
    sentence_length_accumulator a ∧
  ∀ t,
    first_positions (fold_left (analyse_term u) cluster a) !! t =
      match first_positions a !! t with
      | Some p => Some p
      | None => if decide (t ∈ cluster ∧ occurs u t)
                then Some (sentence_length_accumulator a + (Str.find u t + 1))
                else None
      end ∧
    frequency (fold_left (analyse_term u) cluster a) !! t =
      if decide (t ∈ cluster ∧ occurs u t)
      then Some (default 0 (frequency a !! t) + multiplicity cluster t)
      else frequency a !! t.
Proof.
  revert a. induction cluster as [|term cluster IH]; intros a;
    cbn [fold_left].
  - split; [done|]. intros t. split.
    + destruct (first_positions a !! t); [done|].
      rewrite decide_False; [done|]. by intros [?%elem_of_nil _].
    + rewrite decide_False; [done|]. by intros [?%elem_of_nil _].
  - destruct (IH (analyse_term u a term)) as [Hacc Hmaps].
    destruct (analyse_term_spec u a term) as [Hacc1 Hmaps1].
    split; [congruence|]. intros t.
    destruct (Hmaps t) as [Hfp Hfr]. destruct (Hmaps1 t) as [Hfp1 Hfr1].
    rewrite Hfp, Hfr, Hfp1, Hfr1, Hacc1, multiplicity_cons. clear.
    split.
    + destruct (first_positions a !! t); [done|].
      destruct (decide (t = term ∧ occurs u t)) as [[-> Ho]|Hn1].
      * rewrite decide_True; [done|]. split; [by left|done].
      * destruct (decide (t ∈ cluster ∧ occurs u t)) as [[Hin Ho]|Hn2].
        -- rewrite decide_True; [done|]. split; [by right|done].
        -- rewrite decide_False; [done|].
           intros [[->|Hin]%elem_of_cons Ho]; [by apply Hn1|by apply Hn2].
    + destruct (decide (t = term ∧ occurs u t)) as [[-> Ho]|Hn1].
      * rewrite (decide_True (P := term = term)) by done.
        rewrite (decide_True (P := term ∈ term :: cluster ∧ _))
          by (split; [by left|done]).
        destruct (decide (term ∈ cluster ∧ occurs u term)) as [_|Hn2].
        -- simpl. f_equal. lia.
        -- assert (multiplicity cluster term = 0) as ->; [|f_equal; lia].
           unfold multiplicity.
           destruct (filter (λ t', t' = term) cluster) as [|x l] eqn:Hf;
             [done|].
           assert (x ∈ filter (λ t', t' = term) cluster) as Hx
             by (rewrite Hf; left).
           apply list_elem_of_filter in Hx as [-> Hx]. by destruct Hn2.
      * destruct (decide (t ∈ cluster ∧ occurs u t)) as [[Hin Ho]|Hn2].
        -- rewrite (decide_True (P := t ∈ term :: cluster ∧ _))
             by (split; [by right|done]).
           rewrite (decide_False (P := term = t)); [f_equal; lia|].
           intros <-. by apply Hn1.
        -- rewrite decide_False; [done|].
           intros [[->|Hin]%elem_of_cons Ho]; [by apply Hn1|by apply Hn2].
Qed.

(** The whole document, from any state of the loop. *)
Lemma analysis_fold_spec cluster us a0 :
  sentence_length_accumulator (fold_left (analyse_untagged cluster) us a0) =
    sentence_length_accumulator a0 + total_length us ∧
  ∀ t,
    first_positions (fold_left (analyse_untagged cluster) us a0) !! t =
      match first_positions a0 !! t with
      | Some p => Some p
      | None => if decide (t ∈ cluster)
                then first_offset (sentence_length_accumulator a0) us t
                else None
      end ∧
    frequency (fold_left (analyse_untagged cluster) us a0) !! t =
      if decide (t ∈ cluster ∧ 0 < sentences_with us t)
      then Some (default 0 (frequency a0 !! t) +
                 sentences_with us t * multiplicity cluster t)
      else frequency a0 !! t.
Proof.
  revert a0. induction us as [|u us IH]; intros a0; cbn [fold_left].
  - split; [simpl; lia|]. intros t. split.
    + destruct (first_positions a0 !! t); [done|]. simpl. by case_decide.
    + rewrite decide_False; [done|]. intros [_ H]. by compute in H.
  - destruct (IH (analyse_untagged cluster a0 u)) as [Hacc Hmaps].
    destruct (analyse_terms_spec u cluster a0) as [Hacc1 Hmaps1].
    split.
    { rewrite Hacc. unfold analyse_untagged. simpl. rewrite Hacc1. lia. }
    intros t. destruct (Hmaps t) as [Hfp Hfr].
    destruct (Hmaps1 t) as [Hfp1 Hfr1].
    rewrite Hfp, Hfr. unfold analyse_untagged.
    cbn [first_positions frequency sentence_length_accumulator].
    rewrite Hfp1, Hfr1, Hacc1, sentences_with_cons. clear.
    pose proof (sentences_with_nonneg us t) as Hsw.
    cbn [first_offset]. split.
    + destruct (first_positions a0 !! t); [done|].
      destruct (decide (t ∈ cluster)) as [Hin|Hnin].
      * destruct (occurs u t) eqn:Ho.
        -- by rewrite decide_True.
        -- rewrite decide_False; [done|]. by intros [_ ?].
      * rewrite decide_False; [done|]. by intros [? _].
    + destruct (decide (t ∈ cluster)) as [Hin|Hnin].
      * destruct (occurs u t) eqn:Ho.
        -- rewrite (decide_True (P := t ∈ cluster ∧ Is_true true)) by done.
           rewrite (decide_True (P := t ∈ cluster ∧ 0 < 1 + _))
             by (split; [done|lia]).
           destruct (decide (t ∈ cluster ∧ 0 < sentences_with us t))
             as [_|Hn]; simpl; f_equal; [lia|].
           assert (sentences_with us t = 0) as -> by (apply Z.le_antisymm;
             [destruct (Z.lt_ge_cases 0 (sentences_with us t)); [|lia];
              exfalso; by apply Hn|done]).
           lia.
        -- rewrite (decide_False (P := t ∈ cluster ∧ Is_true false))
             by (by intros [_ ?]).
           rewrite Z.add_0_l. done.
      * rewrite !(decide_False (P := t ∈ cluster ∧ _)); [done|by intros [? _]..].
Qed.

Lemma analysis_Ok_inv sep cluster text a0 a :
  for_each (analyse_sentence sep cluster) a0 text = Ok a →
  ∃ us, Forall2 (λ sentence u, untagged sep sentence = Ok u) text us ∧
        a = fold_left (analyse_untagged cluster) us a0.
Proof.
  revert a0. induction text as [|sentence text IH]; intros a0; simpl.
  - intros [= <-]. exists []. by split; [constructor|].
  - intros (a1 & (u & Hu & [= <-])%bind_Ok & Hloop)%bind_Ok.
    destruct (IH _ Hloop) as (us & Hus & ->).
    exists (u :: us). split; [by constructor|done].
Qed.

Lemma position_frequency_analysis_total sep text cluster :
  sep ≠ EmptyString → ∃ a, position_frequency_analysis sep text cluster = Ok a.
Proof.
  intros Hsep. apply for_each_total. intros a sentence.
  unfold analyse_sentence.
  destruct (untagged_total sep sentence Hsep) as [u ->]. simpl. eauto.
Qed.

Lemma position_frequency_analysis_raise sep text cluster e :
  position_frequency_analysis sep text cluster = Raise e →
  sep = EmptyString ∧ e = ValueError.
Proof.
  apply (for_each_raise_inv (λ e, sep = EmptyString ∧ e = ValueError)).
  intros a sentence e'. unfold analyse_sentence.
  destruct (untagged sep sentence) as [u|e1] eqn:Hu; simpl; [done|].
  intros [= <-]. by eapply untagged_raise.
Qed.

Lemma first_offset_first acc us t i u :
  us !! i = Some u → 0 ≤ Str.find u t →
  (∀ j u', (j < i)%nat → us !! j = Some u' → Str.find u' t < 0) →
  first_offset acc us t =
    Some (acc + total_length (take i us) + (Str.find u t + 1)).
Proof.
  revert acc i. induction us as [|u0 us IH]; intros acc i; [done|].
  destruct i as [|i]; simpl.
  - intros [= ->] Hu _. unfold occurs.
    destruct (Z.leb_spec 0 (Str.find u t)); [f_equal; lia|lia].
  - intros Hi Hu Hbefore.
    assert (Str.find u0 t < 0) as Hu0 by (by apply (Hbefore 0%nat); [lia|]).
    unfold occurs at 1. destruct (Z.leb_spec 0 (Str.find u0 t)); [lia|].
    rewrite (IH _ i); [f_equal; lia|done..|].
    intros j u' Hj Hu'. apply (Hbefore (S j)); [lia|done].
Qed.

Lemma first_offset_none acc us t :
  (∀ u, u ∈ us → Str.find u t < 0) → first_offset acc us t = None.
Proof.
  revert acc. induction us as [|u us IH]; intros acc Hno; [done|]. simpl.
  assert (Str.find u t < 0) as Hu by (apply Hno; left).
  unfold occurs. destruct (Z.leb_spec 0 (Str.find u t)); [lia|].
  apply IH. intros. apply Hno. by right.
Qed.

Lemma position_frequency_analysis_maps sep text cluster a :
  position_frequency_analysis sep text cluster = Ok a →
  ∃ us, Forall2 (λ sentence u, untagged sep sentence = Ok u) text us ∧
    sentence_length_accumulator a = total_length us ∧
    ∀ t,
      first_positions a !! t =
        (if decide (t ∈ cluster) then first_offset 0 us t else None) ∧
      frequency a !! t =
        (if decide (t ∈ cluster ∧ 0 < sentences_with us t)
         then Some (sentences_with us t * multiplicity cluster t)
         else None).
Proof.
  intros (us & Hus & ->)%analysis_Ok_inv. exists us. split; [done|].
  destruct (analysis_fold_spec cluster us
    {| sentence_length_accumulator := 0;
       first_positions := ∅; frequency := ∅ |}) as [Hacc Hmaps].
  split; [by rewrite Hacc|]. intros t. destruct (Hmaps t) as [-> ->].
  cbn [first_positions frequency sentence_length_accumulator].
  rewrite !lookup_empty. simpl. split; [done|].
  case_decide; [f_equal; lia|done].
Qed.

(** C5, as amended.  The analysis returns whenever the tag separator is not
    empty.  When it returns, with [us] the untagged sentences in document
    order: the accumulator is the total length of [us], every sentence
    adding its length; for a phrase [t] of the cluster whose first match is
    in sentence [i], at index [find], the recorded offset is the length of
    the sentences before [i] plus [find + 1], whatever follows sentence [i];
    the occurrence count of [t] is the number of sentences that contain [t]
    times the number of times the cluster lists [t] (so each sentence adds
    exactly 1 when the cluster lists [t] once); a phrase that no sentence
    contains, or that is not in the cluster, is in neither map. *)
Theorem position_frequency_analysis_spec sep text cluster :
  (sep ≠ EmptyString →
   ∃ a, position_frequency_analysis sep text cluster = Ok a) ∧
  ∀ a, position_frequency_analysis sep text cluster = Ok a →
  ∃ us, Forall2 (λ sentence u, untagged sep sentence = Ok u) text us ∧
    sentence_length_accumulator a = total_length us ∧
    (∀ t i u, t ∈ cluster → us !! i = Some u → 0 ≤ Str.find u t →
       (∀ j u', (j < i)%nat → us !! j = Some u' → Str.find u' t < 0) →
       first_positions a !! t =
         Some (total_length (take i us) + (Str.find u t + 1))) ∧
    (∀ t, t ∈ cluster → 0 < sentences_with us t →
       frequency a !! t =
         Some (sentences_with us t * multiplicity cluster t)) ∧
    (∀ t, NoDup cluster → t ∈ cluster → 0 < sentences_with us t →
       frequency a !! t = Some (sentences_with us t)) ∧
    (∀ t, t ∉ cluster ∨ (∀ u, u ∈ us → Str.find u t < 0) →
       first_positions a !! t = None ∧ frequency a !! t = None).
Proof.
  split; [apply position_frequency_analysis_total|].
  intros a (us & Hus & Hacc & Hmaps)%position_frequency_analysis_maps.
  exists us. do 2 (split; [done|]). split; [|split; [|split]].
  - intros t i u Hin Hi Hu Hbefore. destruct (Hmaps t) as [-> _].
    rewrite decide_True by done.
    by rewrite (first_offset_first 0 us t i u).
  - intros t Hin Hsw. destruct (Hmaps t) as [_ ->]. by rewrite decide_True.
  - intros t Hnd Hin Hsw. destruct (Hmaps t) as [_ ->].
    rewrite decide_True by done. rewrite multiplicity_NoDup by done.
    f_equal. lia.
  - intros t Hmissing. destruct (Hmaps t) as [-> ->].
    destruct Hmissing as [Hnin|Hno].
    + rewrite decide_False by done.
      rewrite decide_False; [done|]. by intros [? _].
    + split.
      * case_decide; [|done]. by apply first_offset_none.
      * rewrite decide_False; [done|]. intros [_ Hsw].
        rewrite sentences_with_zero in Hsw by done. lia.
Qed.

(** Two members of a cluster of tagged terms can have the same untagged
    form, so that the list handed to [cluster_ordering] by [ordering] lists a
    phrase twice. *)
Example untagged_duplicates_ex :
  for_each (λ untagged_cluster term,
      untagged_term ← untagged "/" term;
      Ok (untagged_cluster ++ [untagged_term])) [] ["a/NN"; "a/VB"] =
  Ok ["a"; "a"].
Proof. reflexivity. Qed.

(** C5, as stated, fails: for the cluster [a, a] and the single sentence
    [a/NN] the occurrence count of [a] is 2, though only one sentence
    contains [a]: the loop over the cluster adds 1 for each of the two list
    entries. *)
Lemma each_sentence_counts_once_fails :
  ¬ each_sentence_counts_once "/" ["a/NN"] ["a"; "a"].
Proof.
  intros H.
  assert (∃ a, position_frequency_analysis "/" ["a/NN"] ["a"; "a"] = Ok a ∧
               frequency a !! "a" = Some 2) as (a & Ha & Hf).
  { eexists. split; [vm_compute; reflexivity|]. vm_compute. reflexivity. }
  specialize (H a ["a"] "a" Ha).
  rewrite Hf in H. discriminate H.
  - repeat constructor.
  - by left.
  - by vm_compute.
Qed.

(** ** The cluster orderer *)

Lemma cluster_centroid_total sim cluster sep stemmer :
  sep ≠ EmptyString → ∃ c, cluster_centroid sim cluster sep stemmer = Ok c.
Proof.
  intros Hsep. rewrite cluster_centroid_unfold.
  destruct (centroid_loop_total sim sep stemmer cluster None (-1)%Q cluster
              Hsep) as [st ->].
  simpl. eauto.
Qed.

Lemma cluster_centroid_raise sim cluster sep stemmer e :
  cluster_centroid sim cluster sep stemmer = Raise e →
  sep = EmptyString ∧ e = ValueError.
Proof.
  rewrite cluster_centroid_unfold.
  destruct (for_each _ _ cluster) as [st|e'] eqn:Hloop; simpl; [done|].
  intros [= <-]. by eapply centroid_loop_raise.
Qed.

Lemma sorted_raise {K A : Type} (leb : K → K → bool) (key : A → result K)
    (l : list A) x e :
  x ∈ l → key x = Raise e →
  (∀ y e', y ∈ l → key y = Raise e' → e' = e) →
  sorted leb key l = Raise e.
Proof.
  intros Hx Hkx Hall. unfold sorted. by rewrite (mapM_raise key l x e).
Qed.

Lemma StronglySorted_lookup_lt {A : Type} (R : A → A → Prop) (l : list A)
    i j x y :
  StronglySorted R l → (i < j)%nat →
  l !! i = Some x → l !! j = Some y → R x y.
Proof.
  intros Hs. revert i j. induction Hs as [|z l Hl IH Hz]; intros i j; [done|].
  destruct i as [|i], j as [|j]; simpl; try lia.
  - intros _ [= ->] Hy. rewrite Forall_forall in Hz. apply Hz.
    by eapply list_elem_of_lookup_2.
  - intros Hij. apply IH. lia.
Qed.

(** [sorted] on the key [(d[t], -1 * len(t.split()))]. *)
Lemma sorted_by_entry (d : gmap string Z) (cluster l : list string) :
  sorted tuple_leb
    (λ t, v ← lookup_or_raise d t; Ok (v, neg_word_count t)) cluster = Ok l →
  l ≡ₚ cluster ∧
  ∀ i j t u, (i < j)%nat → l !! i = Some t → l !! j = Some u →
    ∃ vt vu, d !! t = Some vt ∧ d !! u = Some vu ∧
      (vt < vu ∨ (vt = vu ∧ word_count u ≤ word_count t)).
Proof.
  intros Hl. pose proof (sorted_Ok_perm _ _ _ _ Hl) as Hperm.
  split; [done|].
  assert (∀ x, x ∈ cluster → is_Some (d !! x)) as Hsome.
  { intros x Hx. destruct (sorted_Ok_inv _ _ _ _ Hl x Hx) as [k Hk].
    unfold lookup_or_raise in Hk. by destruct (d !! x). }
  destruct (sorted_pure tuple_leb tuple_leb_total tuple_leb_trans
    (λ t, v ← lookup_or_raise d t; Ok (v, neg_word_count t))
    (λ t, (default 0 (d !! t), neg_word_count t)) cluster)
    as (l' & Hl' & _ & Hs).
  { intros x Hx. destruct (Hsome x Hx) as [v Hv].
    unfold lookup_or_raise. by rewrite Hv. }
  rewrite Hl in Hl'. injection Hl' as <-.
  intros i j t u Hij Ht Hu.
  pose proof (StronglySorted_lookup_lt _ _ _ _ _ _ Hs Hij Ht Hu) as Hle.
  destruct (Hsome t) as [vt Hvt];
    [rewrite <-Hperm; by eapply list_elem_of_lookup_2|].
  destruct (Hsome u) as [vu Hvu];
    [rewrite <-Hperm; by eapply list_elem_of_lookup_2|].
  exists vt, vu. do 2 (split; [done|]).
  simpl in Hle. rewrite Hvt, Hvu in Hle. unfold tuple_leb, neg_word_count in Hle.
  simpl in Hle. lia.
Qed.

Lemma cluster_ordering_Ok_inv sim self cluster l :
  cluster_ordering sim self cluster = Ok l →
  ∃ a, position_frequency_analysis (tag_separator (strategy self))
         (context (strategy self)) cluster = Ok a ∧
    match ordering_criteria self with
    | POSITION =>
        sorted tuple_leb
          (λ t, p ← lookup_or_raise (first_positions a) t;
                Ok (p, neg_word_count t)) cluster = Ok l
    | FREQUENCY =>
        sorted tuple_leb
          (λ t, f ← lookup_or_raise (frequency a) t;
                Ok (f, neg_word_count t)) cluster = Ok l
    | CENTROID => True
    end.
Proof.
  unfold cluster_ordering.
  intros (c & _ & (a & Ha & Hl)%bind_Ok)%bind_Ok.
  exists a. split; [done|]. by destruct (ordering_criteria self).
Qed.




Lemma mapM_total {A B : Type} (f : A → result B) (l : list A) :
  (∀ x, x ∈ l → ∃ y, f x = Ok y) → ∃ ys, mapM f l = Ok ys.
Proof.
  induction l as [|x l IH]; intros Hf; simpl; [eauto|].
  destruct (Hf x) as [y ->]; [by left|]. simpl.
  destruct IH as [ys ->]; [intros; apply Hf; by right|]. simpl. eauto.
Qed.

Lemma sorted_total {K A : Type} (leb : K → K → bool) (key : A → result K)
    (l : list A) :
  (∀ x, x ∈ l → ∃ k, key x = Ok k) → ∃ l', sorted leb key l = Ok l'.
Proof.
  intros Hkey. unfold sorted.
  destruct (mapM_total key l Hkey) as [ks ->]. simpl. eauto.
Qed.

(** C7. Under the POSITION and the FREQUENCY criterion, a cluster member
    that no sentence of the document contains (so that it has no recorded
    offset and no recorded count) makes [cluster_ordering] raise: no default
    offset or count is used.  The exception is the [KeyError] of the lookup
    whenever the tag separator is not empty (with an empty separator the
    function raises before it reaches the sort). *)
Theorem cluster_ordering_missing_entry sim self cluster t :
  ordering_criteria self = POSITION ∨ ordering_criteria self = FREQUENCY →
  t ∈ cluster →
  (∀ sentence u, sentence ∈ context (strategy self) →
     untagged (tag_separator (strategy self)) sentence = Ok u →
     Str.find u t < 0) →
  ∃ e, cluster_ordering sim self cluster = Raise e ∧
       (tag_separator (strategy self) ≠ EmptyString → e = KeyError).
Proof.
  intros Hcrit Hin Hnever. unfold cluster_ordering.
  destruct (cluster_centroid sim _ _ _) as [c|e] eqn:Hc; simpl.
  2: { exists e. split; [done|]. intros Hsep.
       by destruct (cluster_centroid_raise _ _ _ _ _ Hc). }
  destruct (position_frequency_analysis _ _ cluster) as [a|e] eqn:Ha; simpl.
  2: { exists e. split; [done|]. intros Hsep.
       by destruct (position_frequency_analysis_raise _ _ _ _ Ha). }
  destruct (position_frequency_analysis_maps _ _ _ _ Ha)
    as (us & Hus & _ & Hmaps).
  assert (∀ u, u ∈ us → Str.find u t < 0) as Hno.
  { intros u [i Hi]%list_elem_of_lookup.
    destruct (Forall2_lookup_r _ _ _ _ _ Hus Hi) as (s & Hs & Hu).
    eapply Hnever; [|done]. by eapply list_elem_of_lookup_2. }
  destruct (Hmaps t) as [Hfp Hfr].
  rewrite decide_True, first_offset_none in Hfp by done.
  rewrite decide_False in Hfr
    by (intros [_ Hsw]; rewrite sentences_with_zero in Hsw by done; lia).
  exists KeyError. split; [|done].
  destruct Hcrit as [-> | ->]; apply (sorted_raise _ _ _ t); try done.
  - unfold lookup_or_raise. by rewrite Hfp.
  - intros y e' _. unfold lookup_or_raise.
    destruct (first_positions a !! y); simpl; congruence.
  - unfold lookup_or_raise. by rewrite Hfr.
  - intros y e' _. unfold lookup_or_raise.
    destruct (frequency a !! y); simpl; congruence.
Qed.

(** C10. With a non-empty tag separator, for a cluster whose members all
    have the entry that the active criterion reads (a first position under
    POSITION, a count under FREQUENCY, nothing under CENTROID),
    [cluster_ordering] returns a permutation of the cluster: the same
    phrases with the same multiplicities, hence the same length. *)
Theorem cluster_ordering_permutation sim self cluster :
  tag_separator (strategy self) ≠ EmptyString →
  (∀ a t,
     position_frequency_analysis (tag_separator (strategy self))
       (context (strategy self)) cluster = Ok a →
     t ∈ cluster →
     match ordering_criteria self with
     | POSITION => is_Some (first_positions a !! t)
     | FREQUENCY => is_Some (frequency a !! t)
     | CENTROID => True
     end) →
  ∃ l, cluster_ordering sim self cluster = Ok l ∧
       l ≡ₚ cluster ∧ length l = length cluster.
Proof.
  intros Hsep Hrec.
  assert (∃ l, cluster_ordering sim self cluster = Ok l) as [l Hl].
  { unfold cluster_ordering.
    destruct (cluster_centroid_total sim
      (fake_pos_tagged (tag_separator (strategy self)) <$> cluster)
      (tag_separator (strategy self)) (stemmer (strategy self)) Hsep)
      as [c ->].
    destruct (position_frequency_analysis_total
      (tag_separator (strategy self)) (context (strategy self)) cluster Hsep)
      as [a Ha].
    rewrite Ha. simpl. specialize (Hrec a).
    destruct (ordering_criteria self); apply sorted_total; intros x Hx.
    - destruct (Hrec x Ha Hx) as [p Hp]. unfold lookup_or_raise.
      rewrite Hp. simpl. eauto.
    - destruct (Hrec x Ha Hx) as [n Hn]. unfold lookup_or_raise.
      rewrite Hn. simpl. eauto.
    - eauto. }
  exists l. split; [done|].
  pose proof (cluster_ordering_perm _ _ _ _ Hl) as Hperm.
  split; [done|]. by rewrite Hperm.
Qed.

(** C4. Under the POSITION criterion the result of [cluster_ordering] is the
    cluster sorted in ascending order of the key (first-occurrence offset,
    minus the word count): of two phrases of the result, the earlier has the
    smaller offset, or the same offset and at least as many words.  So the
    first phrase has the earliest first occurrence, and of two phrases with
    equal offsets the one with more words comes before the one with fewer. *)
Theorem cluster_ordering_position sim self cluster l :
  ordering_criteria self = POSITION →
  cluster_ordering sim self cluster = Ok l →
  ∃ a, position_frequency_analysis (tag_separator (strategy self))
         (context (strategy self)) cluster = Ok a ∧
    l ≡ₚ cluster ∧
    (∀ i j t u, (i < j)%nat → l !! i = Some t → l !! j = Some u →
       ∃ pt pu, first_positions a !! t = Some pt ∧
                first_positions a !! u = Some pu ∧
                (pt < pu ∨ (pt = pu ∧ word_count u ≤ word_count t))) ∧
    (∀ t u pt pu, l !! 0%nat = Some t → u ∈ cluster →
       first_positions a !! t = Some pt → first_positions a !! u = Some pu →
       pt ≤ pu) ∧
    (∀ i j t u p, l !! i = Some t → l !! j = Some u →
       first_positions a !! t = Some p → first_positions a !! u = Some p →
       word_count u < word_count t → (i < j)%nat).
Proof.
  intros Hcrit Hl.
  destruct (cluster_ordering_Ok_inv _ _ _ _ Hl) as (a & Ha & Hsorted).
  rewrite Hcrit in Hsorted.
  apply sorted_by_entry in Hsorted as [Hperm Hs].
  exists a. do 3 (split; [done|]). split.
  - intros t u pt pu Ht Hu Hpt Hpu.
    rewrite <-Hperm in Hu. apply list_elem_of_lookup in Hu as [j Hj].
    destruct j as [|j].
    + rewrite Ht in Hj. injection Hj as <-. rewrite Hpt in Hpu.
      injection Hpu as <-. lia.
    + destruct (Hs 0%nat (S j) t u) as (pt' & pu' & Hpt' & Hpu' & Hle);
        [lia|done..|].
      rewrite Hpt in Hpt'. rewrite Hpu in Hpu'.
      injection Hpt' as <-. injection Hpu' as <-. lia.
  - intros i j t u p Ht Hu Hpt Hpu Hwc.
    destruct (lt_eq_lt_dec i j) as [[Hlt|Heq]|Hgt]; [done|..].
    + subst j. rewrite Ht in Hu. injection Hu as <-. lia.
    + destruct (Hs j i u t) as (pu' & pt' & Hpu' & Hpt' & Hle); [done..|].
      rewrite Hpt in Hpt'. rewrite Hpu in Hpu'.
      injection Hpt' as <-. injection Hpu' as <-. lia.
Qed.


(** ** The theorems at concrete inputs *)

Lemma ordering_descending_witness :
  ordering unbound_similarity (example_ranker POSITION) example_weights [] =
    Ok [("the cat", 0.9%Q); ("dog", 0.8%Q)] ∧
  descending [("the cat", 0.9%Q); ("dog", 0.8%Q)].
Proof.
  split; [vm_compute; reflexivity|].
  apply (ordering_descending unbound_similarity (example_ranker POSITION)
           example_weights []).
  vm_compute. reflexivity.
Defined.

Lemma ordering_one_entry_per_cluster_witness :
  is_TopicRankStrategy (strategy (example_ranker CENTROID)) = true ∧
  ordering unbound_similarity (example_ranker CENTROID) example_weights [] =
    Ok [("dog", 0.8%Q); ("cat", 0.7%Q)] ∧
  length [("dog", 0.8%Q); ("cat", 0.7%Q)] =
    length (token_ids (strategy (example_ranker CENTROID))) ∧
  ∃ reps, [("dog", 0.8%Q); ("cat", 0.7%Q)] ≡ₚ reps ∧
    Forall2 (represents "/" example_weights)
      (token_ids (strategy (example_ranker CENTROID))) reps.
Proof.
  split; [reflexivity|]. split; [vm_compute; reflexivity|].
  apply (ordering_one_entry_per_cluster unbound_similarity
           (example_ranker CENTROID) example_weights []).
  - reflexivity.
  - vm_compute. reflexivity.
Defined.

Lemma ordering_ignores_clusters_witness :
  is_TopicRankStrategy (strategy (example_ranker POSITION)) = true ∧
  ordering unbound_similarity (example_ranker POSITION) example_weights [] =
  ordering unbound_similarity (example_ranker POSITION) example_weights
    [["bird"]; ["cat"; "dog"]].
Proof.
  split; [reflexivity|].
  apply (ordering_ignores_clusters unbound_similarity
           (example_ranker POSITION)).
  reflexivity.
Defined.


Lemma cluster_ordering_position_witness :
  ordering_criteria (example_ranker POSITION) = POSITION ∧
  cluster_ordering shared_words_similarity (example_ranker POSITION)
    ["cat"; "cat sat"] = Ok ["cat sat"; "cat"] ∧
  ∃ a,
    position_frequency_analysis "/" (context example_strategy)
      ["cat"; "cat sat"] = Ok a ∧
    ∀ i j t u p,
      ["cat sat"; "cat"] !! i = Some t → ["cat sat"; "cat"] !! j = Some u →
      first_positions a !! t = Some p → first_positions a !! u = Some p →
      word_count u < word_count t → (i < j)%nat.
Proof.
  split; [reflexivity|]. split; [vm_compute; reflexivity|].
  destruct (cluster_ordering_position shared_words_similarity
    (example_ranker POSITION) ["cat"; "cat sat"] ["cat sat"; "cat"])
    as (a & Ha & _ & _ & _ & Hties).
  - reflexivity.
  - vm_compute. reflexivity.
  - exists a. split; [exact Ha|exact Hties].
Defined.

Lemma position_frequency_analysis_spec_witness :
  ∃ a us,
    position_frequency_analysis "/" (context example_strategy)
      ["cat"; "dog"; "cat"] = Ok a ∧
    Forall2 (λ sentence u, untagged "/" sentence = Ok u)
      (context example_strategy) us ∧
    sentence_length_accumulator a = total_length us ∧
    (∀ t, t ∈ ["cat"; "dog"; "cat"] → 0 < sentences_with us t →
       frequency a !! t =
         Some (sentences_with us t * multiplicity ["cat"; "dog"; "cat"] t)).
Proof.
  destruct (position_frequency_analysis_spec "/" (context example_strategy)
              ["cat"; "dog"; "cat"]) as [Htotal Hspec].
  destruct Htotal as [a Ha]; [done|].
  destruct (Hspec a Ha) as (us & Hus & Hacc & _ & Hfreq & _).
  exists a, us. repeat split; assumption.
Defined.


Lemma cluster_ordering_missing_entry_witness :
  ∃ e, cluster_ordering unbound_similarity (example_ranker POSITION)
         ["cat"; "bird"] = Raise e ∧
       (tag_separator (strategy (example_ranker POSITION)) ≠ EmptyString →
        e = KeyError).
Proof.
  apply (cluster_ordering_missing_entry unbound_similarity
           (example_ranker POSITION) ["cat"; "bird"] "bird").
  - left. reflexivity.
  - right. left.
  - intros sentence u Hin Hu. apply list_elem_of_In in Hin. simpl in Hin.
    destruct Hin as [<-|[<-|[<-|[]]]]; vm_compute in Hu;
      injection Hu as <-; vm_compute; reflexivity.
Defined.

Lemma cluster_centroid_failure_is_zero_witness :
  "/" ≠ EmptyString ∧
  ∃ c, cluster_centroid unbound_similarity learning_cluster "/"
         identity_stemmer = Ok c.
Proof.
  split; [done|].
  destruct (cluster_centroid_failure_is_zero unbound_similarity
              learning_cluster "/" identity_stemmer) as (_ & _ & Hreturns & _).
  apply Hreturns. done.
Defined.

Lemma cluster_ordering_permutation_witness :
  ∃ l, cluster_ordering shared_words_similarity (example_ranker FREQUENCY)
         ["cat"; "the cat"] = Ok l ∧
       l ≡ₚ ["cat"; "the cat"] ∧ length l = length ["cat"; "the cat"].
Proof.
  apply (cluster_ordering_permutation shared_words_similarity
           (example_ranker FREQUENCY) ["cat"; "the cat"]).
  - done.
  - intros a t Ha Hin. vm_compute in Ha. injection Ha as <-.
    apply list_elem_of_In in Hin. simpl in Hin.
    destruct Hin as [<-|[<-|[]]]; vm_compute; eauto.
Defined.


(** * More of [rankers.py] *)

(** ** Strings and words *)

Lemma app_cons a s t : String a s +:+ t = String a (s +:+ t).
Proof. done. Qed.

Lemma app_empty_r s : s +:+ EmptyString = s.
Proof. induction s as [|a s IH]; [done|]. by rewrite app_cons, IH. Qed.

Lemma app_assoc_string s t u : (s +:+ t) +:+ u = s +:+ (t +:+ u).
Proof. induction s as [|a s IH]; [done|]. by rewrite !app_cons, IH. Qed.

Lemma app_eq_empty s t : s +:+ t = EmptyString → s = EmptyString ∧ t = EmptyString.
Proof. destruct s; [done|]. by rewrite app_cons. Qed.

Lemma rev_app_rev_app w r t :
  String.rev_app (String.rev_app w r) t = String.rev_app r (w +:+ t).
Proof.
revert r t. induction w as [|a w IH]; intros r t; [done|].
cbn [String.rev_app]. by rewrite IH, app_cons.
Qed.

Lemma rev_rev w : String.rev (String.rev w) = w.
Proof.
unfold String.rev. rewrite rev_app_rev_app. cbn [String.rev_app].
apply app_empty_r.
Qed.

Lemma rev_app_eq_empty w r :
  String.rev_app w r = EmptyString → w = EmptyString ∧ r = EmptyString.
Proof.
revert r. induction w as [|a w IH]; intros r; [done|].
cbn [String.rev_app]. by intros [_ [=]]%IH.
Qed.

Lemma no_space_rev_app w r :
  no_space (String.rev_app w r) = no_space w && no_space r.
Proof.
revert r. induction w as [|a w IH]; intros r; [done|].
cbn [String.rev_app no_space]. rewrite IH. cbn [no_space].
destruct (Ascii.is_space a), (no_space w), (no_space r); done.
Qed.

Lemma no_space_app s t : no_space (s +:+ t) = no_space s && no_space t.
Proof.
induction s as [|a s IH]; [done|]. rewrite app_cons. cbn [no_space].
rewrite IH. by destruct (Ascii.is_space a).
Qed.

Lemma is_word_rev r : is_word r → is_word (String.rev r).
Proof.
intros [Hne Hns]. split.
- unfold String.rev. by intros [? _]%rev_app_eq_empty.
- unfold String.rev. by rewrite no_space_rev_app, Hns.
Qed.

(** [split] returns words. *)
Lemma words_go_words cur s :
  (∀ r, cur = Some r → is_word r) → Forall is_word (String.words_go cur s).
Proof.
revert cur. induction s as [|a s IH]; intros cur Hcur; cbn [String.words_go].
- destruct cur as [r|]; simpl; [|constructor].
  constructor; [|constructor]. by apply is_word_rev, Hcur.
- destruct (Ascii.is_space a) eqn:Ha.
  + apply Forall_app. split; [|by apply IH].
    destruct cur as [r|]; simpl; [|constructor].
    constructor; [|constructor]. by apply is_word_rev, Hcur.
  + apply IH. intros r' Hr'. destruct cur as [r|]; simpl in Hr';
      injection Hr' as <-.
    * destruct (Hcur r eq_refl) as [_ Hns]. split; [done|].
      cbn [no_space]. by rewrite Ha, Hns.
    * split; [done|]. cbn [no_space]. by rewrite Ha.
Qed.

Lemma split_words s : Forall is_word (Str.split s).
Proof. apply words_go_words. done. Qed.

Lemma words_go_word r w s :
  no_space w = true →
  String.words_go (Some r) (w +:+ s) =
  String.words_go (Some (String.rev_app w r)) s.
Proof.
revert r. induction w as [|a w IH]; intros r Hw; [done|].
cbn [no_space] in Hw. apply andb_true_iff in Hw as [Ha Hw].
apply negb_true_iff in Ha.
rewrite app_cons. cbn [String.words_go String.rev_app]. rewrite Ha.
simpl from_option. by apply IH.
Qed.

Lemma words_go_start w s :
  is_word w →
  String.words_go None (w +:+ s) = String.words_go (Some (String.rev w)) s.
Proof.
intros [Hne Hw]. destruct w as [|a w]; [done|].
cbn [no_space] in Hw. apply andb_true_iff in Hw as [Ha Hw].
apply negb_true_iff in Ha.
rewrite app_cons. cbn [String.words_go]. rewrite Ha. simpl from_option.
by rewrite words_go_word.
Qed.

Lemma split_word_space w s :
  is_word w → Str.split (w +:+ " " +:+ s) = w :: Str.split s.
Proof.
intros Hw. unfold Str.split, String.words. rewrite words_go_start by done.
rewrite app_cons. cbn [String.words_go]. simpl. by rewrite rev_rev.
Qed.

Lemma split_word w : is_word w → Str.split w = [w].
Proof.
intros Hw. unfold Str.split, String.words.
rewrite <-(app_empty_r w) at 1. rewrite words_go_start by done.
simpl. by rewrite rev_rev.
Qed.

Lemma split_word_spaced w ws :
  is_word w → Forall is_word ws → Str.split (w +:+ spaced ws) = w :: ws.
Proof.
intros Hw Hws. revert w Hw. induction Hws as [|w' ws Hw' _ IH]; intros w Hw.
- simpl. rewrite app_empty_r. by apply split_word.
- cbn [spaced foldr]. rewrite split_word_space by done.
  f_equal. by apply IH.
Qed.

Lemma joined_loop (ws : list string) acc :
  acc ≠ EmptyString →
  fold_left (λ acc w,
      (if decide (acc ≠ EmptyString) then acc +:+ " " else acc) +:+ w)
    ws acc = acc +:+ spaced ws.
Proof.
revert acc. induction ws as [|w ws IH]; intros acc Hacc; cbn [fold_left].
- simpl. by rewrite app_empty_r.
- rewrite decide_True by done. rewrite IH.
  + cbn [spaced foldr]. by rewrite !app_assoc_string.
  + intros [[? _]%app_eq_empty _]%app_eq_empty. done.
Qed.

(** Splitting what the loops have joined gives the words back. *)
Lemma split_joined ws : Forall is_word ws → Str.split (joined ws) = ws.
Proof.
intros Hws. destruct Hws as [|w ws Hw Hws]; [done|].
unfold joined. cbn [fold_left]. rewrite decide_False by (by intros ?).
change (EmptyString +:+ w) with w.
rewrite joined_loop by apply Hw. by apply split_word_spaced.
Qed.

(** ** Fake tagging, then stripping the tags *)

Lemma fold_left_fmap_list {A B C : Type} (g : C → B → C) (f : A → B) l c :
  fold_left g (f <$> l) c = fold_left (λ c x, g c (f x)) l c.
Proof. revert c. induction l as [|x l IH]; intros c; [done|]. apply IH. Qed.

Lemma for_each_fmap {A B S : Type} (body : S → B → result S) (f : A → B) s l :
  for_each body s (f <$> l) = for_each (λ s x, body s (f x)) s l.
Proof.
revert s. induction l as [|x l IH]; intros s; [done|].
cbn [fmap list_fmap for_each]. destruct (body s (f x)); simpl; [apply IH|done].
Qed.

Lemma fake_pos_tagged_joined sep term :
  fake_pos_tagged sep term =
  joined ((λ w, w +:+ sep +:+ "fk") <$> Str.split term).
Proof. unfold fake_pos_tagged, joined. by rewrite fold_left_fmap_list. Qed.

Lemma rsplit_last_fake (c : Ascii.ascii) w :
  c ≠ "f"%char → c ≠ "k"%char →
  Str.rsplit_last (w +:+ String c "fk") (String c EmptyString) =
  Some (w, "fk").
Proof.
intros Hf Hk. induction w as [|a w IH].
- change (EmptyString +:+ String c "fk") with (String c "fk").
  cbn. destruct (Ascii.ascii_dec c "k"); [done|].
  destruct (Ascii.ascii_dec c "f"); [done|].
  by destruct (Ascii.ascii_dec c c).
- rewrite app_cons. cbn [Str.rsplit_last]. by rewrite IH.
Qed.

Lemma is_word_fake (c : Ascii.ascii) w :
  Ascii.is_space c = false → is_word w → is_word (w +:+ String c "fk").
Proof.
intros Hc [Hne Hns]. split.
- by intros [? _]%app_eq_empty.
- rewrite no_space_app, Hns. cbn. by rewrite Hc.
Qed.

(** X2. For a tag separator of one character that is neither whitespace nor
    [f] nor [k], stemming the fake-tagged form of a phrase returns the stems
    of the words of the phrase, joined by single spaces, and untagging it
    returns the words of the phrase joined by single spaces, a string with
    the same words as the phrase. *)
Theorem fake_tag_round_trip (c : Ascii.ascii) term stemmer :
  Ascii.is_space c = false → c ≠ "f"%char → c ≠ "k"%char →
  pos_tagged_term_stemming (fake_pos_tagged (String c EmptyString) term)
    (String c EmptyString) stemmer =
    Ok (joined (stemmer <$> Str.split term)) ∧
  untagged (String c EmptyString) (fake_pos_tagged (String c EmptyString) term)
    = Ok (joined (Str.split term)) ∧
  Str.split (joined (Str.split term)) = Str.split term.
Proof.
intros Hc Hf Hk.
pose proof (split_words term) as Hws.
assert (Forall is_word
  ((λ w, w +:+ String c EmptyString +:+ "fk") <$> Str.split term)) as Hfk.
{ apply Forall_fmap. eapply Forall_impl; [exact Hws|].
  intros w Hw. by apply is_word_fake. }
assert (∀ w, (parts ← Str.rsplit1 (w +:+ String c EmptyString +:+ "fk")
                        (String c EmptyString); getitem parts 0) = Ok w)
  as Hstrip.
{ intros w. unfold Str.rsplit1. rewrite decide_False by done.
  change (String c EmptyString +:+ "fk") with (String c "fk").
  by rewrite rsplit_last_fake. }
split; [|split].
- unfold pos_tagged_term_stemming.
  rewrite fake_pos_tagged_joined, split_joined, for_each_fmap by done.
  rewrite (for_each_pure _ (λ stem w,
    (if decide (stem ≠ EmptyString) then stem +:+ " " else stem)
      +:+ stemmer w)).
  + unfold joined. by rewrite fold_left_fmap_list.
  + intros stem w _.
    pose proof (Hstrip w) as Hw. apply bind_Ok in Hw as (parts & -> & Hw).
    simpl. by rewrite Hw.
- unfold untagged.
  rewrite fake_pos_tagged_joined, split_joined, for_each_fmap by done.
  rewrite (for_each_pure _ (λ acc w,
    (if decide (acc ≠ EmptyString) then acc +:+ " " else acc) +:+ w)).
  + done.
  + intros acc w _.
    pose proof (Hstrip w) as Hw. apply bind_Ok in Hw as (parts & -> & Hw).
    simpl. by rewrite Hw.
- by apply split_joined.
Qed.

Lemma fake_tag_round_trip_witness :
  Ascii.is_space "/" = false ∧
  pos_tagged_term_stemming (fake_pos_tagged "/" " the  cat ") "/"
    identity_stemmer = Ok "the cat" ∧
  untagged "/" (fake_pos_tagged "/" " the  cat ") = Ok "the cat".
Proof.
split; [reflexivity|].
destruct (fake_tag_round_trip "/" " the  cat " identity_stemmer)
  as (Hstem & Huntag & _); [reflexivity|done|done|].
split; [exact Hstem|exact Huntag].
Defined.

(** With the separator [f] the fake tag [fk] is split in the wrong place. *)
Example fake_tag_separator_f_ex :
  untagged "f" (fake_pos_tagged "f" "cat") = Ok "catf".
Proof. reflexivity. Qed.

(** ** When stemming and the centroid raise *)

Lemma for_each_raise {A S : Type} (body : S → A → result S) s l x e :
  x ∈ l → (∀ s, body s x = Raise e) →
  (∀ s y e', body s y = Raise e' → e' = e) →
  for_each body s l = Raise e.
Proof.
intros Hx Hbx Hall. revert s.
induction l as [|y l IH]; intros s; [by inversion Hx|].
cbn [for_each]. destruct (body s y) as [s'|e'] eqn:Hy; simpl.
- apply elem_of_cons in Hx as [->|Hx]; [by rewrite Hbx in Hy|by apply IH].
- f_equal. by eapply Hall.
Qed.

Lemma stemming_no_words term sep stemmer :
  Str.split term = [] →
  pos_tagged_term_stemming term sep stemmer = Ok EmptyString.
Proof. intros H. unfold pos_tagged_term_stemming. by rewrite H. Qed.

Lemma stemming_empty_sep term stemmer :
  Str.split term ≠ [] →
  pos_tagged_term_stemming term EmptyString stemmer = Raise ValueError.
Proof.
intros H. unfold pos_tagged_term_stemming.
by destruct (Str.split term) as [|wt wts].
Qed.

(** X1. [pos_tagged_term_stemming] raises exactly when the tag separator is
    empty and the candidate has at least one word, and then it raises the
    [ValueError] of [rsplit]; a candidate without words (empty, or
    whitespace only) gives the empty string whatever the separator. *)
Theorem pos_tagged_term_stemming_raises term sep stemmer :
  (∀ e, pos_tagged_term_stemming term sep stemmer = Raise e ↔
        sep = EmptyString ∧ Str.split term ≠ [] ∧ e = ValueError) ∧
  (Str.split term = [] →
   pos_tagged_term_stemming term sep stemmer = Ok EmptyString).
Proof.
split; [|apply stemming_no_words].
intros e. split.
- intros He. destruct (pos_tagged_term_stemming_raise _ _ _ _ He) as [-> ->].
  split; [done|]. split; [|done]. intros Hno.
  by rewrite stemming_no_words in He.
- intros (-> & Hw & ->). by apply stemming_empty_sep.
Qed.

Lemma pos_tagged_term_stemming_raises_witness :
  Str.split "cat/NN" ≠ [] ∧
  pos_tagged_term_stemming "cat/NN" EmptyString identity_stemmer =
    Raise ValueError ∧
  pos_tagged_term_stemming "   " EmptyString identity_stemmer =
    Ok EmptyString.
Proof.
split; [done|].
destruct (pos_tagged_term_stemming_raises "cat/NN" EmptyString
            identity_stemmer) as [Hraise _].
destruct (pos_tagged_term_stemming_raises "   " EmptyString
            identity_stemmer) as [_ Hempty].
split; [by apply Hraise|by apply Hempty].
Defined.

Lemma average_similarity_empty_sep sim cluster stemmer stem1 t :
  t ∈ cluster → Str.split t ≠ [] →
  average_similarity sim cluster EmptyString stemmer stem1 = Raise ValueError.
Proof.
intros Ht Hw. unfold average_similarity.
rewrite (for_each_raise _ _ _ t ValueError); [done..| |].
- intros q. by rewrite stemming_empty_sep.
- intros q y e'.
  destruct (pos_tagged_term_stemming y EmptyString stemmer) as [s|e2] eqn:Hs;
    simpl.
  + by destruct (sim stem1 s).
  + intros [= <-]. by destruct (pos_tagged_term_stemming_raise _ _ _ _ Hs).
Qed.

Lemma cluster_centroid_no_words sim cluster sep stemmer :
  (∀ t, t ∈ cluster → Str.split t = []) →
  ∃ c, cluster_centroid sim cluster sep stemmer = Ok c.
Proof.
intros Hno.
assert (∀ stem1 q0 l, (∀ t, t ∈ l → Str.split t = []) →
  ∃ q, for_each (λ similarity term2,
      stem2 ← pos_tagged_term_stemming term2 sep stemmer;
      match sim stem1 stem2 with
      | Some v => Ok (similarity + v)%Q
      | None => Ok (similarity + 0)%Q
      end) q0 l = Ok q) as Hinner.
{ intros stem1 q0 l. revert q0.
  induction l as [|y l IH]; intros q0 Hl; [by eexists|].
  cbn [for_each]. rewrite stemming_no_words by (apply Hl; left). simpl.
  destruct (sim stem1 EmptyString); simpl; apply IH; intros; apply Hl;
    by right. }
unfold cluster_centroid.
assert (∀ st l, (∀ t, t ∈ l → Str.split t = []) →
  ∃ st', for_each (λ '(centroid, max_similarity) term1,
      stem1 ← pos_tagged_term_stemming term1 sep stemmer;
      similarity ← average_similarity sim cluster sep stemmer stem1;
      if float_gtb similarity max_similarity
      then Ok (Some term1, similarity)
      else Ok (centroid, max_similarity)) st l = Ok st') as Houter.
{ intros st l. revert st.
  induction l as [|y l IH]; intros [c m] Hl; [by eexists|].
  cbn [for_each]. rewrite stemming_no_words by (apply Hl; left). simpl.
  unfold average_similarity.
  destruct (Hinner EmptyString 0%Q cluster Hno) as [q ->]. simpl.
  destruct (float_gtb _ m); simpl; apply IH; intros; apply Hl; by right. }
destruct (Houter (None, (-1)%Q) cluster Hno) as [st' ->]. simpl. eauto.
Qed.

Lemma cluster_centroid_raise_words sim cluster sep stemmer e :
  cluster_centroid sim cluster sep stemmer = Raise e →
  ∃ t, t ∈ cluster ∧ Str.split t ≠ [].
Proof.
intros He.
destruct (decide (Exists (λ t, Str.split t ≠ []) cluster)) as [Hex|Hno].
- apply Exists_exists in Hex as (t & Ht & Hw). eauto.
- exfalso. apply not_Exists_Forall in Hno; [|apply _].
  rewrite Forall_forall in Hno.
  destruct (cluster_centroid_no_words sim cluster sep stemmer)
    as [c Hc]; [|congruence].
  intros t Ht. specialize (Hno t Ht). simpl in Hno.
  by destruct (Str.split t); [|exfalso; apply Hno].
Qed.

Lemma cluster_centroid_empty_sep sim cluster stemmer t :
  t ∈ cluster → Str.split t ≠ [] →
  cluster_centroid sim cluster EmptyString stemmer = Raise ValueError.
Proof.
intros Ht Hw.
unfold cluster_centroid. destruct cluster as [|x l]; [by inversion Ht|].
cbn [for_each].
destruct (pos_tagged_term_stemming x EmptyString stemmer) as [s|e2] eqn:Hs;
  simpl.
- by rewrite (average_similarity_empty_sep sim (x :: l) stemmer s t).
- by destruct (pos_tagged_term_stemming_raise _ _ _ _ Hs) as [_ ->].
Qed.

(** Whether [cluster_centroid] raises does not depend on the similarity
    function. *)
Lemma cluster_centroid_same_raise sim1 sim2 cluster sep stemmer e :
  cluster_centroid sim1 cluster sep stemmer = Raise e →
  cluster_centroid sim2 cluster sep stemmer = Raise e.
Proof.
intros He. destruct (cluster_centroid_raise _ _ _ _ _ He) as [-> ->].
destruct (cluster_centroid_raise_words _ _ _ _ _ He) as (t & Ht & Hw).
by eapply cluster_centroid_empty_sep.
Qed.

(** X3. [cluster_centroid] raises exactly when the tag separator is empty
    and some member of the cluster has at least one word, and then it raises
    [ValueError]: whether it raises does not depend on the similarity
    function, whose failures it absorbs, nor on the stemmer. *)
Theorem cluster_centroid_raises sim cluster sep stemmer e :
  cluster_centroid sim cluster sep stemmer = Raise e ↔
  sep = EmptyString ∧ (∃ t, t ∈ cluster ∧ Str.split t ≠ []) ∧ e = ValueError.
Proof.
split.
- intros He. destruct (cluster_centroid_raise _ _ _ _ _ He) as [-> ->].
  split; [done|]. split; [|done].
  by eapply cluster_centroid_raise_words.
- intros (-> & (t & Ht & Hw) & ->).
  by eapply cluster_centroid_empty_sep.
Qed.

Lemma cluster_centroid_raises_witness :
  cluster_centroid shared_words_similarity ["   "; "cat/NN"] EmptyString
    identity_stemmer = Raise ValueError.
Proof.
apply (cluster_centroid_raises shared_words_similarity ["   "; "cat/NN"]
         EmptyString identity_stemmer ValueError).
split; [done|]. split; [|done].
exists "cat/NN". split; [right; left|done].
Defined.

(** ** The centroid, for any similarity function *)



Lemma similarity_sum_zero (sim : string → string → option Q) sep stemmer
    (stems : list string) stem1 q0 q :
  (∀ s1 s2 v, sim s1 s2 = Some v → (v == 0)%Q) →
  (q0 == 0)%Q →
  for_each (λ similarity term2,
      stem2 ← pos_tagged_term_stemming term2 sep stemmer;
      match sim stem1 stem2 with
      | Some v => Ok (similarity + v)%Q
      | None => Ok (similarity + 0)%Q
      end) q0 stems = Ok q →
  (q == 0)%Q.
Proof.
intros Hsim. revert q0. induction stems as [|t stems IH]; intros q0 Hq0.
- simpl. by intros [= <-].
- cbn [for_each]. intros (q1 & Hq1 & Hq)%bind_Ok. eapply IH; [|exact Hq].
  apply bind_Ok in Hq1 as (s & _ & Hq1).
  destruct (sim stem1 s) as [v|] eqn:Hv; injection Hq1 as <-.
  + apply Hsim in Hv. rewrite Hq0, Hv. reflexivity.
  + rewrite Hq0. reflexivity.
Qed.

Lemma member_average_zero sim cluster sep stemmer t q :
  (∀ s1 s2 v, sim s1 s2 = Some v → (v == 0)%Q) →
  member_average sim cluster sep stemmer t = Ok q → (q == 0)%Q.
Proof.
intros Hsim. unfold member_average, average_similarity.
intros (s & _ & (q1 & Hq1 & [= <-])%bind_Ok)%bind_Ok.
apply similarity_sum_zero in Hq1; [|done|reflexivity].
rewrite Hq1. reflexivity.
Qed.

(** X5. When every similarity computation fails or gives 0 (as all do while
    [simple_word_overlap_similarity] is an unbound name), all the averages
    are equal and [cluster_centroid] returns the first member of any
    non-empty cluster. *)
Theorem cluster_centroid_all_fail sim t l sep stemmer :
  sep ≠ EmptyString →
  (∀ s1 s2 v, sim s1 s2 = Some v → (v == 0)%Q) →
  cluster_centroid sim (t :: l) sep stemmer = Ok (Some t).
Proof.
intros Hsep Hsim. rewrite cluster_centroid_unfold.
destruct (centroid_loop_total sim sep stemmer (t :: l) None (-1)%Q (t :: l)
            Hsep) as [[c m] Hloop].
rewrite Hloop. simpl.
destruct (member_average_total sim sep stemmer (t :: l) t Hsep) as [q Hq].
pose proof (member_average_zero _ _ _ _ _ _ Hsim Hq) as Hq0.
destruct (centroid_scan _ _ _ _ _ _ _ _ _ Hloop)
  as [[[= -> ->] Hle]|(i & t' & Hi & -> & Ht & Hlt & Hall)].
- exfalso. assert (q <= -1)%Q as Hq1 by (eapply Hle; [by left|done]).
  rewrite Hq0 in Hq1. by compute in Hq1.
- destruct i as [|i]; [simpl in Hi; by injection Hi as ->|].
  exfalso. destruct (Hall 0%nat t q eq_refl Hq) as [_ Hlt0].
  pose proof (member_average_zero _ _ _ _ _ _ Hsim Ht) as Hm0.
  assert (q < m)%Q as H by (apply Hlt0; lia).
  rewrite Hq0, Hm0 in H. by compute in H.
Qed.

Lemma cluster_centroid_all_fail_witness :
  "/" ≠ EmptyString ∧
  cluster_centroid unbound_similarity learning_cluster "/" identity_stemmer =
    Ok (Some "machine/NN learning/NN").
Proof.
split; [done|].
apply (cluster_centroid_all_fail unbound_similarity); [done|].
intros s1 s2 v Hv. discriminate Hv.
Defined.

(** ** Invariants of the position and frequency analysis *)

Lemma prefix_length a b :
  String.prefix a b = true → (String.length a ≤ String.length b)%nat.
Proof.
revert b. induction a as [|x a IH]; intros b; [simpl; lia|].
destruct b as [|y b]; [done|]. cbn [String.prefix String.length].
destruct (Ascii.ascii_dec x y); [|done]. intros H%IH. lia.
Qed.

(** A match lies inside the string. *)
Lemma find_fits s sub :
  0 ≤ Str.find s sub → Str.find s sub + Str.len sub ≤ Str.len s.
Proof.
unfold Str.len. induction s as [|c s IH]; cbn [Str.find].
- destruct (String.prefix sub EmptyString) eqn:Hp; [|lia].
  apply prefix_length in Hp. lia.
- destruct (String.prefix sub (String c s)) eqn:Hp.
  + apply prefix_length in Hp. lia.
  + destruct (Z.ltb_spec (Str.find s sub) 0); [lia|].
    cbn [String.length]. lia.
Qed.

Lemma total_length_nonneg us : 0 ≤ total_length us.
Proof. induction us as [|u us IH]; simpl; unfold Str.len in *; lia. Qed.

Lemma total_length_app us1 us2 :
  total_length (us1 ++ us2) = total_length us1 + total_length us2.
Proof. induction us1 as [|u us1 IH]; simpl; lia. Qed.

Lemma total_length_take_S us i u :
  us !! i = Some u →
  total_length (take (S i) us) = total_length (take i us) + Str.len u.
Proof.
intros Hi. rewrite (take_S_r _ _ _ Hi), total_length_app. simpl. lia.
Qed.

Lemma total_length_take_mono us (i j : nat) :
  (i ≤ j)%nat → total_length (take i us) ≤ total_length (take j us).
Proof.
revert i j. induction us as [|u us IH]; intros i j Hij.
- by rewrite !take_nil.
- destruct i as [|i], j as [|j]; try lia.
  + simpl take at 1. pose proof (total_length_nonneg (take (S j) (u :: us))).
    simpl in *. lia.
  + specialize (IH i j). unfold total_length in *. cbn [take foldr]. lia.
Qed.

Lemma total_length_take_le us (i : nat) :
  total_length (take i us) ≤ total_length us.
Proof.
rewrite <-(take_drop i us) at 2. rewrite total_length_app.
pose proof (total_length_nonneg (drop i us)). lia.
Qed.

(** What [first_offset] finds is a first match. *)
Lemma first_offset_inv acc us t p :
  first_offset acc us t = Some p →
  ∃ i u, us !! i = Some u ∧ 0 ≤ Str.find u t ∧
    (∀ j u', (j < i)%nat → us !! j = Some u' → Str.find u' t < 0) ∧
    p = acc + total_length (take i us) + (Str.find u t + 1).
Proof.
revert acc. induction us as [|u0 us IH]; intros acc; [done|].
cbn [first_offset]. unfold occurs at 1.
destruct (Z.leb_spec 0 (Str.find u0 t)) as [Hge|Hlt].
- intros [= <-]. exists 0%nat, u0. split; [done|]. split; [done|].
  split; [lia|]. simpl. lia.
- intros (i & u & Hi & Hu & Hbefore & ->)%IH.
  exists (S i), u. split; [done|]. split; [done|]. split.
  + intros [|j] u' Hj Hu'; simpl in Hu'.
    * by injection Hu' as <-.
    * apply (Hbefore j); [lia|done].
  + unfold total_length. cbn [take foldr]. lia.
Qed.

Lemma first_offset_is_Some acc us t :
  is_Some (first_offset acc us t) ↔ 0 < sentences_with us t.
Proof.
revert acc. induction us as [|u us IH]; intros acc.
- simpl. split; [by intros [? ?]|by compute].
- cbn [first_offset]. rewrite sentences_with_cons.
  pose proof (sentences_with_nonneg us t).
  destruct (occurs u t); [split; [lia|eauto]|].
  rewrite IH. lia.
Qed.

Lemma sentences_with_le us t : sentences_with us t ≤ Z.of_nat (length us).
Proof.
induction us as [|u us IH]; [done|]. rewrite sentences_with_cons.
cbn [length]. destruct (occurs u t); lia.
Qed.

(** X6. Whenever the analysis returns: a phrase has a first position exactly
    when it has an occurrence count; every recorded phrase is a member of the
    cluster; a recorded offset is at least 1 and the match it stands for
    ends within the accumulated length; a recorded count is at least 1 and
    at most the number of sentences times the number of times the cluster
    lists the phrase. *)
Theorem analysis_invariants sep text cluster a :
  position_frequency_analysis sep text cluster = Ok a →
  (∀ t, is_Some (first_positions a !! t) ↔ is_Some (frequency a !! t)) ∧
  (∀ t p, first_positions a !! t = Some p →
     t ∈ cluster ∧ 1 ≤ p ∧
     p + Str.len t ≤ sentence_length_accumulator a + 1) ∧
  (∀ t n, frequency a !! t = Some n →
     t ∈ cluster ∧
     1 ≤ n ≤ Z.of_nat (length text) * multiplicity cluster t).
Proof.
intros (us & Hus & Hacc & Hmaps)%position_frequency_analysis_maps.
split; [|split].
- intros t. destruct (Hmaps t) as [-> ->].
  destruct (decide (t ∈ cluster)) as [Hin|Hnin].
  + rewrite first_offset_is_Some.
    destruct (decide (t ∈ cluster ∧ 0 < sentences_with us t)) as [[_ H]|Hn].
    * split; [eauto|done].
    * split; [intros H; exfalso; by apply Hn|by intros [? ?]].
  + rewrite decide_False by (by intros [? _]). done.
- intros t p. destruct (Hmaps t) as [-> _].
  destruct (decide (t ∈ cluster)) as [Hin|Hnin]; [|done].
  intros (i & u & Hi & Hu & _ & ->)%first_offset_inv.
  split; [done|].
  pose proof (total_length_nonneg (take i us)).
  pose proof (find_fits u t Hu).
  pose proof (total_length_take_S us i u Hi).
  pose proof (total_length_take_le us (S i)).
  rewrite Hacc. lia.
- intros t n. destruct (Hmaps t) as [_ ->].
  destruct (decide (t ∈ cluster ∧ 0 < sentences_with us t)) as [[Hin Hsw]|Hn];
    [|done].
  intros [= <-]. split; [done|].
  pose proof (multiplicity_pos cluster t Hin).
  pose proof (sentences_with_le us t).
  rewrite (Forall2_length _ _ _ Hus). nia.
Qed.

Lemma analysis_invariants_witness :
  ∃ a, position_frequency_analysis "/" (context example_strategy)
         ["cat"; "dog"; "bird"] = Ok a ∧
    ∀ t, is_Some (first_positions a !! t) ↔ is_Some (frequency a !! t).
Proof.
destruct (position_frequency_analysis "/" (context example_strategy)
            ["cat"; "dog"; "bird"]) as [a|e] eqn:Ha; [|by vm_compute in Ha].
exists a. split; [done|].
by destruct (analysis_invariants "/" (context example_strategy)
               ["cat"; "dog"; "bird"] a Ha) as [Hdom _].
Defined.

(** X7. The recorded offsets follow the order of the document, although the
    accumulator does not count the breaks between sentences.  For two
    phrases of the cluster whose first occurrences are in sentences [i] and
    [j]: if [i] is before [j] the offset of the first is at most the offset
    of the second, and smaller when the first phrase is not empty; if they
    are in the same sentence the offsets differ as the match indices do. *)
Theorem first_positions_document_order sep text cluster a :
  position_frequency_analysis sep text cluster = Ok a →
  ∃ us, Forall2 (λ sentence u, untagged sep sentence = Ok u) text us ∧
    ∀ t1 t2 i j u1 u2,
      t1 ∈ cluster → t2 ∈ cluster →
      us !! i = Some u1 → 0 ≤ Str.find u1 t1 →
      (∀ k u, (k < i)%nat → us !! k = Some u → Str.find u t1 < 0) →
      us !! j = Some u2 → 0 ≤ Str.find u2 t2 →
      (∀ k u, (k < j)%nat → us !! k = Some u → Str.find u t2 < 0) →
      ∃ p1 p2,
        first_positions a !! t1 = Some p1 ∧
        first_positions a !! t2 = Some p2 ∧
        ((i < j)%nat → p1 ≤ p2 ∧ (t1 ≠ EmptyString → p1 < p2)) ∧
        (i = j → p1 - p2 = Str.find u1 t1 - Str.find u2 t2).
Proof.
intros (us & Hus & _ & Hmaps)%position_frequency_analysis_maps.
exists us. split; [done|].
intros t1 t2 i j u1 u2 Hin1 Hin2 Hi Hf1 Hb1 Hj Hf2 Hb2.
destruct (Hmaps t1) as [Hp1 _]. destruct (Hmaps t2) as [Hp2 _].
rewrite decide_True in Hp1 by done. rewrite decide_True in Hp2 by done.
rewrite (first_offset_first 0 us t1 i u1) in Hp1 by done.
rewrite (first_offset_first 0 us t2 j u2) in Hp2 by done.
eexists _, _. split; [exact Hp1|]. split; [exact Hp2|]. split.
- intros Hij.
  pose proof (find_fits u1 t1 Hf1) as Hfit.
  pose proof (total_length_take_S us i u1 Hi) as HS.
  pose proof (total_length_take_mono us (S i) j) as Hmono.
  assert (0 ≤ Str.len t1) as Hlen by (unfold Str.len; lia).
  split; [lia|]. intros Hne.
  assert (0 < Str.len t1); [|lia].
  destruct t1; [done|]. unfold Str.len. cbn [String.length]. lia.
- intros <-. rewrite Hi in Hj. injection Hj as <-. lia.
Qed.

Lemma first_positions_document_order_witness :
  ∃ a p1 p2,
    position_frequency_analysis "/" (context example_strategy)
      ["sat"; "the dog"] = Ok a ∧
    first_positions a !! "sat" = Some p1 ∧
    first_positions a !! "the dog" = Some p2 ∧ p1 < p2.
Proof.
destruct (position_frequency_analysis "/" (context example_strategy)
            ["sat"; "the dog"]) as [a|e] eqn:Ha; [|by vm_compute in Ha].
destruct (first_positions_document_order "/" (context example_strategy)
            ["sat"; "the dog"] a Ha) as (us & Hus & Horder).
assert (us = ["the cat sat"; "the dog ran"; "cat dog"]) as ->.
{ apply Forall2_cons_inv_l in Hus as (u1 & us1 & Hu1 & Hus & ->).
  apply Forall2_cons_inv_l in Hus as (u2 & us2 & Hu2 & Hus & ->).
  apply Forall2_cons_inv_l in Hus as (u3 & us3 & Hu3 & Hus & ->).
  apply Forall2_nil_inv_l in Hus as ->.
  vm_compute in Hu1, Hu2, Hu3. by simplify_eq. }
destruct (Horder "sat" "the dog" 0%nat 1%nat "the cat sat" "the dog ran")
  as (p1 & p2 & Hp1 & Hp2 & Hlt & _).
- left.
- right. left.
- reflexivity.
- by vm_compute.
- intros k u Hk. lia.
- reflexivity.
- by vm_compute.
- intros [|k] u Hk; [|lia]. intros [= <-]. by vm_compute.
- exists a, p1, p2. do 3 (split; [done|]). apply Hlt; [lia|done].
Defined.

(** ** More on the cluster orderer *)

Lemma cluster_centroid_Some_elem sim cluster sep stemmer c :
  cluster_centroid sim cluster sep stemmer = Ok (Some c) → c ∈ cluster.
Proof.
rewrite cluster_centroid_unfold.
intros ([c' m] & Hloop & [= ->])%bind_Ok.
destruct (centroid_scan _ _ _ _ _ _ _ _ _ Hloop)
  as [[[=] _]|(i & t & Hi & [= <-] & _)].
by eapply list_elem_of_lookup_2.
Qed.

(** X8. Under the POSITION and the FREQUENCY criterion the result of
    [cluster_ordering], a list or an exception, is the same for any two
    similarity functions: the centroid is computed and not used. *)
Theorem cluster_ordering_ignores_similarity sim1 sim2 self cluster :
  ordering_criteria self = POSITION ∨ ordering_criteria self = FREQUENCY →
  cluster_ordering sim1 self cluster = cluster_ordering sim2 self cluster.
Proof.
intros Hcrit. unfold cluster_ordering.
destruct (cluster_centroid sim1 _ _ _) as [c1|e1] eqn:H1;
  destruct (cluster_centroid sim2 _ _ _) as [c2|e2] eqn:H2; simpl.
- destruct (position_frequency_analysis _ _ cluster) as [a|e]; simpl; [|done].
  by destruct Hcrit as [-> | ->].
- apply (cluster_centroid_same_raise _ sim1) in H2. congruence.
- apply (cluster_centroid_same_raise _ sim2) in H1. congruence.
- apply (cluster_centroid_same_raise _ sim2) in H1. congruence.
Qed.

Lemma cluster_ordering_ignores_similarity_witness :
  cluster_ordering unbound_similarity (example_ranker POSITION)
    ["cat"; "the cat"] =
  cluster_ordering shared_words_similarity (example_ranker POSITION)
    ["cat"; "the cat"].
Proof.
apply (cluster_ordering_ignores_similarity unbound_similarity
         shared_words_similarity (example_ranker POSITION)).
left. reflexivity.
Defined.

Lemma centroid_of_spec (f : string → string) cluster c a0 :
  let r := centroid_of_loop_result cluster f c a0 in
  (r = a0 ∧ c ∉ f <$> cluster) ∨ (r ∈ cluster ∧ f r = c).
Proof.
revert a0. induction cluster as [|x l IH]; intros a0.
- left. split; [done|]. by intros ?%elem_of_nil.
- unfold centroid_of_loop_result. cbn [fmap list_fmap zip zip_with fold_left].
  destruct (IH (if decide (Some (f x) = Some c) then x else a0))
    as [[Hr Hnin]|[Hin Hf]].
  + unfold centroid_of_loop_result in Hr. rewrite Hr.
    destruct (decide (Some (f x) = Some c)) as [[= Hfx]|Hne].
    * right. split; [by left|done].
    * left. split; [done|]. intros [Hc|Hc]%elem_of_cons; [|done].
      apply Hne. by rewrite Hc.
  + right. split; [by right|done].
Qed.

(** X9. Under the CENTROID criterion, when the centroid selector picks the
    fake-tagged phrase [c], the result of [cluster_ordering] is a permutation
    of the cluster that starts with a member of the cluster whose fake-tagged
    form is [c]; the occurrences of that phrase come before all other
    phrases, and the other phrases follow in order of non-increasing word
    count. *)
Theorem cluster_ordering_centroid_first sim self cluster l c :
  ordering_criteria self = CENTROID →
  cluster_ordering sim self cluster = Ok l →
  cluster_centroid sim
    (fake_pos_tagged (tag_separator (strategy self)) <$> cluster)
    (tag_separator (strategy self)) (stemmer (strategy self)) = Ok (Some c) →
  ∃ ctr, ctr ∈ cluster ∧
    fake_pos_tagged (tag_separator (strategy self)) ctr = c ∧
    l ≡ₚ cluster ∧ l !! 0%nat = Some ctr ∧
    (∀ i j t, (i < j)%nat → l !! i = Some t → l !! j = Some ctr → t = ctr) ∧
    (∀ i j t u, (i < j)%nat → l !! i = Some t → l !! j = Some u →
       t ≠ ctr → word_count u ≤ word_count t).
Proof.
intros Hcrit Hl Hc.
pose proof (cluster_ordering_perm _ _ _ _ Hl) as Hperm.
unfold cluster_ordering in Hl. rewrite Hc in Hl. simpl in Hl.
destruct (position_frequency_analysis _ _ cluster) as [a|e]; simpl in Hl;
  [|done].
rewrite Hcrit in Hl.
change (centroid_of cluster
          (fake_pos_tagged (tag_separator (strategy self)) <$> cluster)
          (Some c))
  with (centroid_of_loop_result cluster
          (fake_pos_tagged (tag_separator (strategy self))) c EmptyString)
  in Hl.
destruct (centroid_of_spec (fake_pos_tagged (tag_separator (strategy self)))
            cluster c EmptyString) as [[_ Hnin]|[Hin Hfake]].
{ exfalso. apply Hnin. by eapply cluster_centroid_Some_elem. }
set (ctr := centroid_of_loop_result cluster
              (fake_pos_tagged (tag_separator (strategy self))) c EmptyString)
  in *.
destruct (sorted_pure tuple_leb tuple_leb_total tuple_leb_trans
  (λ t, Ok (Z.b2z (bool_decide (t ≠ ctr)), neg_word_count t))
  (λ t, (Z.b2z (bool_decide (t ≠ ctr)), neg_word_count t)) cluster)
  as (l' & Hl' & _ & Hs); [done|].
rewrite Hl in Hl'. injection Hl' as <-.
assert (∀ i j t u, (i < j)%nat → l !! i = Some t → l !! j = Some u →
  (u = ctr → t = ctr) ∧ (t ≠ ctr → word_count u ≤ word_count t)) as Hord.
{ intros i j t u Hij Ht Hu.
  pose proof (StronglySorted_lookup_lt _ _ _ _ _ _ Hs Hij Ht Hu) as Hle.
  unfold tuple_leb, neg_word_count in Hle. simpl in Hle.
  split.
  - intros ->. rewrite (bool_decide_eq_false_2 (ctr ≠ ctr)) in Hle
      by (intros H; by apply H).
    destruct (decide (t = ctr)) as [|Hne]; [done|].
    rewrite (bool_decide_eq_true_2 (t ≠ ctr)) in Hle by done.
    simpl in Hle. lia.
  - intros Hne. rewrite (bool_decide_eq_true_2 (t ≠ ctr)) in Hle by done.
    destruct (bool_decide (u ≠ ctr)); simpl in Hle; lia. }
exists ctr. do 3 (split; [done|]). split; [|split].
- assert (ctr ∈ l) as [j Hj]%list_elem_of_lookup by (by rewrite Hperm).
  destruct j as [|j]; [done|].
  destruct (l !! 0%nat) as [h|] eqn:Hh; [|by destruct l].
  f_equal. eapply (Hord 0%nat (S j) h ctr); [lia|done..].
- intros i j t Hij Ht Hj. by eapply (Hord i j t ctr).
- intros i j t u Hij Ht Hu Hne. by eapply (Hord i j t u).
Qed.

Lemma cluster_ordering_centroid_first_witness :
  ∃ ctr, ctr ∈ ["cat"; "the cat"; "a cat"] ∧
    fake_pos_tagged "/" ctr = "the/fk cat/fk" ∧
    ["the cat"; "a cat"; "cat"] ≡ₚ ["cat"; "the cat"; "a cat"] ∧
    ["the cat"; "a cat"; "cat"] !! 0%nat = Some ctr ∧
    (∀ i j t, (i < j)%nat → ["the cat"; "a cat"; "cat"] !! i = Some t →
       ["the cat"; "a cat"; "cat"] !! j = Some ctr → t = ctr) ∧
    (∀ i j t u, (i < j)%nat → ["the cat"; "a cat"; "cat"] !! i = Some t →
       ["the cat"; "a cat"; "cat"] !! j = Some u →
       t ≠ ctr → word_count u ≤ word_count t).
Proof.
apply (cluster_ordering_centroid_first shared_words_similarity
         (example_ranker CENTROID) ["cat"; "the cat"; "a cat"]).
- reflexivity.
- vm_compute. reflexivity.
- vm_compute. reflexivity.
Defined.

Lemma mapM_Raise_inv {A B : Type} (f : A → result B) (l : list A) e :
  mapM f l = Raise e → ∃ x, x ∈ l ∧ f x = Raise e.
Proof.
induction l as [|x l IH]; [done|]. simpl.
destruct (f x) as [y|e'] eqn:Hx; simpl.
- destruct (mapM f l) as [ys|e'']; simpl; [done|].
  intros [= <-]. destruct IH as (x' & Hin & Hx'); [done|].
  exists x'. split; [by right|done].
- intros [= <-]. exists x. split; [by left|done].
Qed.

Lemma sorted_Raise_inv {K A : Type} (leb : K → K → bool) (key : A → result K)
    (l : list A) e :
  sorted leb key l = Raise e → ∃ x, x ∈ l ∧ key x = Raise e.
Proof.
unfold sorted. destruct (mapM key l) as [ks|e'] eqn:Hks; simpl; [done|].
intros [= <-]. by apply mapM_Raise_inv.
Qed.

Lemma sentences_with_zero_inv us t u :
  sentences_with us t ≤ 0 → u ∈ us → Str.find u t < 0.
Proof.
induction us as [|u0 us IH]; [by intros _ ?%elem_of_nil|].
rewrite sentences_with_cons. pose proof (sentences_with_nonneg us t).
unfold occurs. destruct (Z.leb_spec 0 (Str.find u0 t)); [lia|].
intros Hsw [->|Hu]%elem_of_cons; [done|]. apply IH; [lia|done].
Qed.

Lemma unrecorded_never_matched sep text cluster a t :
  position_frequency_analysis sep text cluster = Ok a →
  t ∈ cluster →
  first_positions a !! t = None ∨ frequency a !! t = None →
  ∀ sentence u, sentence ∈ text → untagged sep sentence = Ok u →
                Str.find u t < 0.
Proof.
intros (us & Hus & _ & Hmaps)%position_frequency_analysis_maps Hin Hnone.
assert (sentences_with us t ≤ 0) as Hsw.
{ destruct (Hmaps t) as [Hfp Hfr]. destruct Hnone as [Hn|Hn].
  - rewrite Hfp, decide_True in Hn by done.
    destruct (Z.lt_ge_cases 0 (sentences_with us t)) as [Hlt|]; [|lia].
    apply (first_offset_is_Some 0) in Hlt as [p Hp]. congruence.
  - rewrite Hfr in Hn.
    destruct (decide (t ∈ cluster ∧ 0 < sentences_with us t)) as [|Hno];
      [done|].
    destruct (Z.lt_ge_cases 0 (sentences_with us t)) as [Hlt|]; [|lia].
    exfalso. by apply Hno. }
intros sentence u [i Hi]%list_elem_of_lookup Hu.
destruct (Forall2_lookup_l _ _ _ _ _ Hus Hi) as (u' & Hu' & Hsu).
rewrite Hu in Hsu. injection Hsu as <-.
eapply sentences_with_zero_inv; [done|]. by eapply list_elem_of_lookup_2.
Qed.

(** X10. [cluster_ordering] raises only in two ways: the [ValueError] of an
    empty tag separator, or, under the POSITION and the FREQUENCY criterion,
    the [KeyError] of a cluster member that no sentence of the document
    contains.  It never raises [IndexError], and under the CENTROID
    criterion it never raises [KeyError]. *)
Theorem cluster_ordering_raises sim self cluster e :
  cluster_ordering sim self cluster = Raise e →
  (e = ValueError ∧ tag_separator (strategy self) = EmptyString) ∨
  (e = KeyError ∧
   (ordering_criteria self = POSITION ∨ ordering_criteria self = FREQUENCY) ∧
   ∃ t, t ∈ cluster ∧
     ∀ sentence u, sentence ∈ context (strategy self) →
       untagged (tag_separator (strategy self)) sentence = Ok u →
       Str.find u t < 0).
Proof.
unfold cluster_ordering.
destruct (cluster_centroid sim _ _ _) as [c|e1] eqn:Hc; simpl.
2: { intros [= <-]. left.
     by destruct (cluster_centroid_raise _ _ _ _ _ Hc) as [-> ->]. }
destruct (position_frequency_analysis _ _ cluster) as [a|e1] eqn:Ha; simpl.
2: { intros [= <-]. left.
     by destruct (position_frequency_analysis_raise _ _ _ _ Ha) as [-> ->]. }
destruct (ordering_criteria self) eqn:Hcrit.
- intros (t & Hin & Ht)%sorted_Raise_inv. right.
  unfold lookup_or_raise in Ht.
  destruct (first_positions a !! t) eqn:Hfp; [done|]. injection Ht as <-.
  split; [done|]. split; [by left|]. exists t. split; [done|].
  eapply unrecorded_never_matched; [done..|by left].
- intros (t & Hin & Ht)%sorted_Raise_inv. right.
  unfold lookup_or_raise in Ht.
  destruct (frequency a !! t) eqn:Hfr; [done|]. injection Ht as <-.
  split; [done|]. split; [by right|]. exists t. split; [done|].
  eapply unrecorded_never_matched; [done..|by right].
- by intros (t & Hin & Ht)%sorted_Raise_inv.
Qed.

Lemma cluster_ordering_raises_witness :
  cluster_ordering unbound_similarity (example_ranker FREQUENCY)
    ["cat"; "bird"] = Raise KeyError ∧
  ∃ t, t ∈ ["cat"; "bird"] ∧
    ∀ sentence u, sentence ∈ context example_strategy →
      untagged "/" sentence = Ok u → Str.find u t < 0.
Proof.
assert (cluster_ordering unbound_similarity (example_ranker FREQUENCY)
          ["cat"; "bird"] = Raise KeyError) as He
  by (vm_compute; reflexivity).
split; [exact He|].
destruct (cluster_ordering_raises unbound_similarity
            (example_ranker FREQUENCY) ["cat"; "bird"] KeyError He)
  as [[Hv _]|(_ & _ & Ht)]; [discriminate Hv|exact Ht].
Defined.

(** ** More on the global orderer *)

Lemma filter_decorated {K A : Type} (P : K * A → Prop) (P2 : A → Prop)
    `{!∀ p, Decision (P p)} `{!∀ x, Decision (P2 x)} (d : list (K * A)) :
  Forall (λ p, P p ↔ P2 p.2) d → filter P2 (d.*2) = (filter P d).*2.
Proof.
induction 1 as [|p d Hp _ IH]; [done|].
cbn [fmap list_fmap]. rewrite !filter_cons, IH.
destruct (decide (P p)) as [H1|H1], (decide (P2 p.2)) as [H2|H2];
  try done; exfalso; tauto.
Qed.

Lemma decorated_by_score (rows : list (string * Q)) :
  zip (rows.*2) rows = (λ x, (x.2, x)) <$> rows.
Proof. induction rows; simpl; [done|]. by f_equal. Qed.

(** Sorting by score keeps the rows of equal score in their order. *)
Lemma sorted_by_score_stable (rows l : list (string * Q)) q :
  sorted float_geb (λ row, Ok row.2) rows = Ok l →
  filter (λ row, (row.2 == q)%Q) l = filter (λ row, (row.2 == q)%Q) rows.
Proof.
unfold sorted. rewrite (mapM_pure _ snd) by done. simpl.
intros [= <-]. rewrite decorated_by_score.
set (d := (λ x : string * Q, (x.2, x)) <$> rows).
assert (d.*2 = rows) as Hd.
{ unfold d. rewrite <-list_fmap_compose. apply list_fmap_id. }
assert (∀ d', d' ≡ₚ d →
  Forall (λ p : Q * (string * Q), (p.1 == q)%Q ↔ (p.2.2 == q)%Q) d')
  as Hdec.
{ intros d' ->. unfold d. apply Forall_fmap, Forall_true. done. }
rewrite (filter_decorated (λ p, (p.1 == q)%Q) (λ row, (row.2 == q)%Q))
  by apply Hdec, stable_sort_perm.
rewrite stable_sort_stable.
- rewrite <-(filter_decorated (λ p, (p.1 == q)%Q)
               (λ row, (row.2 == q)%Q)) by by apply Hdec.
  by rewrite Hd.
- intros x y Hx Hy. unfold float_geb. apply Qle_bool_iff.
  rewrite Hx, Hy. apply Qle_refl.
Qed.

(** X11. Without a cluster-aware strategy [ordering] always returns; its
    result is a permutation of the items of the weight map, nothing dropped
    and nothing added, and the items of equal score are in the order in
    which the map lists them. *)
Theorem ordering_flat_stable sim self weights clusters :
  is_TopicRankStrategy (strategy self) = false →
  ∃ l, ordering sim self weights clusters = Ok l ∧ l ≡ₚ weights ∧
    ∀ q, filter (λ row, (row.2 == q)%Q) l =
         filter (λ row, (row.2 == q)%Q) weights.
Proof.
intros Hs.
destruct (ordering_flat_total sim self weights clusters Hs)
  as (l & Hl & Hperm).
exists l. do 2 (split; [done|]). intros q.
unfold ordering in Hl. rewrite Hs in Hl. simpl in Hl.
by apply sorted_by_score_stable.
Qed.

Lemma ordering_flat_stable_witness :
  is_TopicRankStrategy (strategy flat_ranker) = false ∧
  ∃ l, ordering unbound_similarity flat_ranker
         [("cat", 0.3%Q); ("the cat", 0.9%Q); ("dog", 0.3%Q)] [] = Ok l ∧
    l ≡ₚ [("cat", 0.3%Q); ("the cat", 0.9%Q); ("dog", 0.3%Q)] ∧
    ∀ q, filter (λ row, (row.2 == q)%Q) l =
         filter (λ row, (row.2 == q)%Q)
           [("cat", 0.3%Q); ("the cat", 0.9%Q); ("dog", 0.3%Q)].
Proof.
split; [reflexivity|].
apply (ordering_flat_stable unbound_similarity flat_ranker). reflexivity.
Defined.

Lemma cluster_ordering_raise_not_ValueError sim self cluster e :
  tag_separator (strategy self) ≠ EmptyString →
  cluster_ordering sim self cluster = Raise e → e = KeyError.
Proof.
intros Hsep. unfold cluster_ordering.
destruct (cluster_centroid sim _ _ _) as [c|e1] eqn:Hc; simpl.
2: { by destruct (cluster_centroid_raise _ _ _ _ _ Hc). }
destruct (position_frequency_analysis _ _ cluster) as [a|e1] eqn:Ha; simpl.
2: { by destruct (position_frequency_analysis_raise _ _ _ _ Ha). }
destruct (ordering_criteria self);
  intros (t & _ & Ht)%sorted_Raise_inv; unfold lookup_or_raise in Ht.
- by destruct (first_positions a !! t); simplify_eq/=.
- by destruct (frequency a !! t); simplify_eq/=.
- done.
Qed.

Lemma cluster_ordering_nil sim self :
  tag_separator (strategy self) ≠ EmptyString →
  cluster_ordering sim self [] = Ok [].
Proof.
intros Hsep. unfold cluster_ordering.
destruct (position_frequency_analysis_total (tag_separator (strategy self))
            (context (strategy self)) [] Hsep) as [a Ha].
cbn [fmap list_fmap]. unfold cluster_centroid at 1. cbn [for_each].
simpl. rewrite Ha. simpl. by destruct (ordering_criteria self).
Qed.

Lemma for_each_raise_in {A S : Type} (P : exn → Prop)
    (body : S → A → result S) s l x :
  x ∈ l → (∀ s, ∃ e, body s x = Raise e ∧ P e) →
  (∀ s y e, body s y = Raise e → P e) →
  ∃ e, for_each body s l = Raise e ∧ P e.
Proof.
intros Hx Hbx Hall. revert s.
induction l as [|y l IH]; intros s; [by inversion Hx|].
cbn [for_each]. destruct (body s y) as [s'|e'] eqn:Hy; simpl.
- apply elem_of_cons in Hx as [->|Hx]; [|by apply IH].
  destruct (Hbx s) as (e & He & _). congruence.
- exists e'. split; [done|]. by eapply Hall.
Qed.

(** X12. With a cluster-aware strategy and a non-empty tag separator, an
    empty cluster in the strategy's token grouping makes [ordering] raise:
    [cluster_ordering] returns the empty list for it and taking element 0
    raises [IndexError], unless an earlier cluster has already raised
    [KeyError].  When the empty cluster is the first one, the exception is
    [IndexError]. *)
Theorem ordering_empty_cluster sim self weights clusters :
  tag_separator (strategy self) ≠ EmptyString →
  is_TopicRankStrategy (strategy self) = true →
  [] ∈ token_ids (strategy self) →
  ∃ e, ordering sim self weights clusters = Raise e ∧
       (e = IndexError ∨ e = KeyError) ∧
       (∀ rest, token_ids (strategy self) = [] :: rest → e = IndexError).
Proof.
intros Hsep Hs Hin. unfold ordering. rewrite Hs. simpl.
assert (∀ acc : list (string * Q),
  (untagged_cluster ← for_each (λ untagged_cluster term,
        untagged_term ← untagged (tag_separator (strategy self)) term;
        Ok (untagged_cluster ++ [untagged_term])) [] [];
   untagged_cluster ← cluster_ordering sim self untagged_cluster;
   cluster_keyphrase ← getitem untagged_cluster 0;
   cluster_score ← dict_getitem weights cluster_keyphrase;
   Ok (acc ++ [(cluster_keyphrase, cluster_score)])) = Raise IndexError)
  as Hempty.
{ intros acc. cbn [for_each]. simpl. by rewrite cluster_ordering_nil. }
destruct (for_each_raise_in (λ e, e = IndexError ∨ e = KeyError)
  (λ ordered_terms cluster,
      untagged_cluster ← for_each (λ untagged_cluster term,
          untagged_term ← untagged (tag_separator (strategy self)) term;
          Ok (untagged_cluster ++ [untagged_term])) [] cluster;
      untagged_cluster ← cluster_ordering sim self untagged_cluster;
      cluster_keyphrase ← getitem untagged_cluster 0;
      cluster_score ← dict_getitem weights cluster_keyphrase;
      Ok (ordered_terms ++ [(cluster_keyphrase, cluster_score)]))
  [] (token_ids (strategy self)) [] Hin) as (e & He & HP).
- intros acc. exists IndexError. split; [apply Hempty|by left].
- intros acc cluster e.
  destruct (for_each _ [] cluster) as [uc|e1] eqn:Huc; simpl.
  2: { intros [= <-]. exfalso. revert Huc.
       apply (for_each_raise_inv (λ _, False)).
       intros uc t e2.
       destruct (untagged (tag_separator (strategy self)) t) as [u|e3] eqn:Hu;
         simpl; [done|].
       intros _. by destruct (untagged_raise _ _ _ Hu). }
  destruct (cluster_ordering sim self uc) as [oc|e1] eqn:Hoc; simpl.
  2: { intros [= <-]. right.
       by eapply cluster_ordering_raise_not_ValueError. }
  unfold getitem. destruct (oc !! 0%nat) as [k|]; simpl.
  2: { intros [= <-]. by left. }
  destruct (dict_getitem weights k) as [sc|e1] eqn:Hsc; simpl; [done|].
  intros [= <-]. right. clear -Hsc.
  induction weights as [|[k' v] w IH]; simpl in Hsc; [by injection Hsc|].
  destruct (decide (k' = k)); [done|by apply IH].
- exists e. rewrite He. simpl. split; [done|]. split; [done|].
  intros rest Hrest. rewrite Hrest in He. cbn [for_each] in He.
  rewrite Hempty in He. simpl in He. by injection He.
Qed.

Lemma ordering_empty_cluster_witness :
  ∃ e, ordering unbound_similarity
         {| strategy := {|
              is_TopicRankStrategy := true;
              token_ids := [["cat/NN"]; []];
              tag_separator := "/";
              stemmer := identity_stemmer;
              context := context example_strategy |};
            ordering_criteria := POSITION |}
         example_weights [] = Raise e ∧
       (e = IndexError ∨ e = KeyError).
Proof.
destruct (ordering_empty_cluster unbound_similarity
  {| strategy := {|
       is_TopicRankStrategy := true;
       token_ids := [["cat/NN"]; []];
       tag_separator := "/";
       stemmer := identity_stemmer;
       context := context example_strategy |};
     ordering_criteria := POSITION |} example_weights [])
  as (e & He & Hcases & _).
- done.
- reflexivity.
- right. left.
- exists e. split; [exact He|exact Hcases].
Defined.

(** ** [weighting] *)

Lemma weighted_candidates_snoc (ranking : list (string * Q)) c s
    (m : gmap string Q) :
  fold_left (λ weighted_candidates '(candidate, score),
      <[candidate := score]> weighted_candidates) (ranking ++ [(c, s)]) m =
  <[c := s]> (fold_left (λ weighted_candidates '(candidate, score),
      <[candidate := score]> weighted_candidates) ranking m).
Proof. by rewrite fold_left_app. Qed.

(** The dictionary built from a ranking holds, for a candidate, the score of
    its last pair in the ranking. *)
Lemma weighted_candidates_lookup (ranking : list (string * Q)) c s :
  fold_left (λ weighted_candidates '(candidate, score),
      <[candidate := score]> weighted_candidates) ranking
    (∅ : gmap string Q) !! c = Some s ↔
  ∃ i, ranking !! i = Some (c, s) ∧
       ∀ j s', (i < j)%nat → ranking !! j ≠ Some (c, s').
Proof.
revert s. induction ranking as [|[c' s'] ranking IH] using rev_ind; intros s.
- simpl. rewrite lookup_empty. split; [done|]. by intros (i & Hi & _).
- rewrite weighted_candidates_snoc, lookup_insert.
  destruct (decide (c' = c)) as [->|Hne].
  + split.
    * intros [= ->]. exists (length ranking). split.
      -- by apply list_lookup_middle.
      -- intros j s'' Hj. rewrite lookup_ge_None_2; [done|].
         rewrite length_app. simpl. lia.
    * intros (i & Hi & Hlast).
      apply lookup_snoc_Some in Hi as [[Hlt Hi]|[-> [= ->]]]; [|done].
      exfalso. apply (Hlast (length ranking) s'); [done|].
      by apply list_lookup_middle.
  + rewrite IH. split.
    * intros (i & Hi & Hlast). exists i.
      pose proof (lookup_lt_Some _ _ _ Hi) as Hlt.
      split; [by rewrite lookup_app_l|].
      intros j s'' Hij Hj.
      apply lookup_snoc_Some in Hj as [[_ Hj]|[_ [= -> _]]]; [|done].
      by eapply Hlast.
    * intros (i & Hi & Hlast).
      apply lookup_snoc_Some in Hi as [[Hlt Hi]|[_ [= -> _]]]; [|done].
      exists i. split; [done|]. intros j s'' Hij Hj.
      apply (Hlast j s''); [done|].
      pose proof (lookup_lt_Some _ _ _ Hj). by rewrite lookup_app_l.
Qed.

(** X13. The dictionary returned by [weighting] maps a candidate to the
    score of its last pair in the ranking returned by the engine (a later
    pair overwrites an earlier one), and holds no other candidate.
    [weighting] injects the clusters into the strategy only when the
    strategy is cluster-aware: otherwise it leaves the ranker as it is. *)
Theorem weighting_last_write set_clusters rank self full_text candidates
    clusters :
  let result :=
    weighting set_clusters rank self full_text candidates clusters in
  let ranking := rank (strategy result.1) candidates full_text in
  (∀ c s, result.2 !! c = Some s ↔
     ∃ i, ranking !! i = Some (c, s) ∧
          ∀ j s', (i < j)%nat → ranking !! j ≠ Some (c, s')) ∧
  (∀ c, c ∈ dom result.2 ↔ c ∈ ranking.*1) ∧
  (is_TopicRankStrategy (strategy self) = false → result.1 = self).
Proof.
intros result ranking. split; [|split].
- intros c s. apply weighted_candidates_lookup.
- intros c. rewrite elem_of_dom. split.
  + intros [s Hs]. apply weighted_candidates_lookup in Hs as (i & Hi & _).
    apply list_elem_of_fmap. exists (c, s). split; [done|].
    by eapply list_elem_of_lookup_2.
  + intros ([c' s] & -> & Hin)%list_elem_of_fmap. simpl.
    assert (∀ l : list (string * Q), (c', s) ∈ l →
      is_Some (fold_left (λ weighted_candidates '(candidate, score),
          <[candidate := score]> weighted_candidates) l
        (∅ : gmap string Q) !! c')) as Hsome.
    { clear. intros l. induction l as [|[c2 s2] l IH] using rev_ind.
      - by intros ?%elem_of_nil.
      - rewrite weighted_candidates_snoc, lookup_insert.
        destruct (decide (c2 = c')); [eauto|].
        intros [Hl|Hl]%elem_of_app; [by apply IH|].
        apply list_elem_of_singleton in Hl. by simplify_eq. }
    by apply Hsome.
- intros Hs. unfold result, weighting. by rewrite Hs.
Qed.

Lemma weighting_last_write_witness :
  (weighting (λ st _, st)
     (λ _ _ _, [("cat", 0.2%Q); ("dog", 0.3%Q); ("cat", 0.7%Q)])
     flat_ranker "the cat sat" ["cat"; "dog"] []).2 !! "cat" = Some 0.7%Q.
Proof.
destruct (weighting_last_write (λ st _, st)
  (λ _ _ _, [("cat", 0.2%Q); ("dog", 0.3%Q); ("cat", 0.7%Q)])
  flat_ranker "the cat sat" ["cat"; "dog"] []) as [Hlookup _].
apply Hlookup. exists 2%nat. split; [reflexivity|].
intros j s' Hj. destruct j as [|[|[|j]]]; try lia. done.
Defined.

Lemma weighted_candidates_list_to_map (ranking : list (string * Q)) :
  NoDup (ranking.*1) →
  fold_left (λ weighted_candidates '(candidate, score),
      <[candidate := score]> weighted_candidates) ranking
    (∅ : gmap string Q) = list_to_map ranking.
Proof.
induction ranking as [|[c s] ranking IH] using rev_ind; intros Hnd; [done|].
rewrite fmap_app in Hnd. apply NoDup_app in Hnd as (Hnd & Hnin & _).
rewrite weighted_candidates_snoc, IH by done.
rewrite list_to_map_snoc; [done|].
intros Hc. apply (Hnin c Hc). simpl. by left.
Qed.

(** X14. [weighting] followed by [ordering], without a cluster-aware
    strategy: when the engine ranks every candidate once, [ordering] applied
    to the items of the dictionary that [weighting] returns, in whatever
    order the dictionary lists them, returns the pairs of the ranking,
    rearranged in order of non-increasing score. *)
Theorem weighting_then_ordering sim set_clusters rank self full_text
    candidates clusters items :
  is_TopicRankStrategy (strategy self) = false →
  NoDup (rank (strategy self) candidates full_text).*1 →
  items ≡ₚ map_to_list
    (weighting set_clusters rank self full_text candidates clusters).2 →
  ∃ l, ordering sim self items clusters = Ok l ∧
       l ≡ₚ rank (strategy self) candidates full_text ∧ descending l.
Proof.
intros Hs Hnd Hitems.
destruct (ordering_flat_total sim self items clusters Hs) as (l & Hl & Hperm).
exists l. split; [done|]. split.
- rewrite Hperm, Hitems. unfold weighting. rewrite Hs. simpl.
  rewrite weighted_candidates_list_to_map by done.
  by apply map_to_list_to_map.
- unfold ordering in Hl. rewrite Hs in Hl. simpl in Hl.
  by eapply sorted_by_score_descending.
Qed.

Lemma weighting_then_ordering_witness :
  ∃ l, ordering unbound_similarity flat_ranker
         (map_to_list (weighting (λ st _, st)
            (λ _ _ _, [("cat", 0.7%Q); ("dog", 0.3%Q)])
            flat_ranker "the cat sat" ["cat"; "dog"] []).2) [] = Ok l ∧
       l ≡ₚ [("cat", 0.7%Q); ("dog", 0.3%Q)] ∧ descending l.
Proof.
apply (weighting_then_ordering unbound_similarity (λ st _, st)
         (λ _ _ _, [("cat", 0.7%Q); ("dog", 0.3%Q)])
         flat_ranker "the cat sat" ["cat"; "dog"] []).
- reflexivity.
- simpl. apply NoDup_cons. split; [by intros [=]%list_elem_of_singleton|].
  apply NoDup_singleton.
- reflexivity.
Defined.

(** ** Ties between clusters, and ordering a ranked result again *)

(** X15. With a cluster-aware strategy, the entries of equal score in the
    result of [ordering] are in the order of their clusters in the strategy's
    token grouping: the result is the list of the clusters' entries, in
    cluster order, sorted stably by score. *)
Theorem ordering_clusters_stable sim self weights clusters l :
  is_TopicRankStrategy (strategy self) = true →
  ordering sim self weights clusters = Ok l →
  ∃ reps,
    Forall2 (represents (tag_separator (strategy self)) weights)
      (token_ids (strategy self)) reps ∧
    l ≡ₚ reps ∧ descending l ∧
    ∀ q, filter (λ row, (row.2 == q)%Q) l =
         filter (λ row, (row.2 == q)%Q) reps.
Proof.
intros Hs. unfold ordering. rewrite Hs. simpl.
intros (rows & Hrows & Hl)%bind_Ok.
apply representatives_loop_Ok in Hrows as (reps & -> & Hreps).
exists reps. split; [done|]. simpl in Hl. split; [|split].
- by eapply sorted_Ok_perm.
- by eapply sorted_by_score_descending.
- intros q. by apply sorted_by_score_stable.
Qed.

Lemma ordering_clusters_stable_witness :
  ∃ reps,
    Forall2 (represents "/" [("cat", 0.5%Q); ("dog", 0.5%Q)])
      (token_ids example_strategy) reps ∧
    [("cat", 0.5%Q); ("dog", 0.5%Q)] ≡ₚ reps ∧
    descending [("cat", 0.5%Q); ("dog", 0.5%Q)] ∧
    ∀ q, filter (λ row, (row.2 == q)%Q) [("cat", 0.5%Q); ("dog", 0.5%Q)] =
         filter (λ row, (row.2 == q)%Q) reps.
Proof.
apply (ordering_clusters_stable unbound_similarity (example_ranker CENTROID)
         [("cat", 0.5%Q); ("dog", 0.5%Q)] []).
- reflexivity.
- vm_compute. reflexivity.
Defined.



